(** * prometheus/counter.go: the lock-free counter and its vector

    A shallow embedding of [counter] (the two registers [valBits] and
    [change], the exemplar slot), of its methods as trees of atomic
    actions, and of the [CounterVec] lookups.  The IEEE 754 binary64
    arithmetic that [Add] and [get] rely on is the one that [SpecFloat]
    specifies. *)

From Stdlib Require Import ZArith Bool List Lia String.
From Stdlib Require Import Floats.SpecFloat.
Import ListNotations.
Local Open Scope Z_scope.

(** ** float64

    A Go [float64] is a pattern of 64 bits; [math.Float64frombits] and
    [math.Float64bits] reinterpret the same bits, so a value is modelled
    by its pattern and the two functions are the two directions of the
    record.  Arithmetic and comparisons go through the decoded
    [spec_float]. *)

Definition prec : Z := 53.
Definition emax : Z := 1024.

Record float64 : Set := Float64frombits { Float64bits : Z }.

(** The three fields of a binary64 pattern. *)
Definition sign_of (b : Z) : bool := 1 <=? (b / 2 ^ 63) mod 2.
Definition exponent_of (b : Z) : Z := (b / 2 ^ 52) mod 2 ^ 11.
Definition fraction_of (b : Z) : Z := b mod 2 ^ 52.

Definition join_bits (s : bool) (e m : Z) : Z :=
  (if s then 2 ^ 63 else 0) + e * 2 ^ 52 + m.

(** Decoding of a pattern: zeros and subnormals have exponent field 0,
    infinities and NaNs have exponent field 2047, the others carry the
    implicit leading bit. *)
Definition SF_of_bits (b : Z) : spec_float :=
  let s := sign_of b in
  let e := exponent_of b in
  let m := fraction_of b in
  if e =? 0 then
    match m with
    | Zpos p => S754_finite s p (-1074)
    | _ => S754_zero s
    end
  else if e =? 2047 then
    if m =? 0 then S754_infinity s else S754_nan
  else
    match m + 2 ^ 52 with
    | Zpos p => S754_finite s p (e - 1075)
    | _ => S754_nan
    end.

Definition SF_of (x : float64) : spec_float := SF_of_bits (Float64bits x).

(** Encoding of a decoded value; the pattern of a NaN is given apart. *)
Definition bits_of_SF (nan : Z) (x : spec_float) : Z :=
  match x with
  | S754_zero s => join_bits s 0 0
  | S754_infinity s => join_bits s 2047 0
  | S754_nan => nan
  | S754_finite s m e =>
      if Zpos m <? 2 ^ 52 then join_bits s 0 (Zpos m)
      else join_bits s (e + 1075) (Zpos m - 2 ^ 52)
  end.

(** What Go leaves to the implementation: the sign and payload of a NaN
    that an addition produces, and the result of converting to [uint64] a
    value that [uint64] cannot represent. *)
Class Platform : Type := {
  nan_of_add : float64 -> float64 -> Z;
  uint64_unrepresentable : float64 -> Z
}.

(** A quiet NaN with the sign and the low payload bits of [n]. *)
Definition quiet_nan (n : Z) : Z :=
  join_bits (sign_of n) 2047 (2 ^ 51 + n mod 2 ^ 51).

Definition fzero : float64 := Float64frombits 0.

(** [x == y], [x < y], [x <= y] on float64. *)
Definition feqb (x y : float64) : bool := SFeqb (SF_of x) (SF_of y).
Definition fltb (x y : float64) : bool := SFltb (SF_of x) (SF_of y).
Definition fleb (x y : float64) : bool := SFleb (SF_of x) (SF_of y).

(** The conversion [float64(n)] of a [uint64], to the nearest float64,
    ties to even. *)
Definition float64_of_uint64 (n : Z) : float64 :=
  Float64frombits (bits_of_SF 0 (binary_normalize prec emax n 0 false)).

(** The integer part of a finite value, towards zero. *)
Definition truncate (m : positive) (e : Z) : Z :=
  if 0 <=? e then Zpos m * 2 ^ e else Zpos m / 2 ^ (- e).

Section Arithmetic.
Context {P : Platform}.

(** [x + y] on float64, rounding to nearest, ties to even. *)
Definition fadd (x y : float64) : float64 :=
  Float64frombits
    (bits_of_SF (quiet_nan (nan_of_add x y))
                (SFadd prec emax (SF_of x) (SF_of y))).

(** The conversion [uint64(v)]: the fraction is discarded; outside of the
    range of [uint64] the result is the platform's. *)
Definition uint64_of_float64 (v : float64) : Z :=
  match SF_of v with
  | S754_zero _ => 0
  | S754_finite false m e =>
      let t := truncate m e in
      if t <? 2 ^ 64 then t else uint64_unrepresentable v mod 2 ^ 64
  | S754_finite true m e =>
      if truncate m e =? 0 then 0 else uint64_unrepresentable v mod 2 ^ 64
  | _ => uint64_unrepresentable v mod 2 ^ 64
  end.

End Arithmetic.

(** A platform to run examples on: the NaN of an addition is the default
    quiet NaN, an unrepresentable conversion gives [2^63]. *)
Definition example_platform : Platform :=
  {| nan_of_add := fun _ _ => 0; uint64_unrepresentable := fun _ => 2 ^ 63 |}.


(** ** Values of floats

    The definitions that the properties of the arithmetic are stated
    with.  A non-negative float is measured in units of [2^-1074], the
    smallest positive float64, so that every finite value is an integer. *)

(** The record after [k >= 1] right shifts of [m]. *)
Definition shifted (m k : Z) : shr_record :=
  {| shr_m := m / 2 ^ k;
     shr_r := Z.odd (m / 2 ^ (k - 1));
     shr_s := negb (m mod 2 ^ (k - 1) =? 0) |}.

(** Rounding to nearest, ties to even: whether the quotient of [N] by
    [2^n] is to be incremented. *)
Definition round_up (N n : Z) : bool :=
  Z.odd (N / 2 ^ (n - 1)) &&
  (negb (N mod 2 ^ (n - 1) =? 0) || Z.odd (N / 2 ^ n)).

(** [N >= 0] rounded to 53 significant bits. *)
Definition rne (N : Z) : Z :=
  let n := Zdigits2 N - 53 in
  if 0 <? n then (N / 2 ^ n + (if round_up N n then 1 else 0)) * 2 ^ n
  else N.

Definition TOP : Z := 2 ^ 2098.

(** The value of a non-negative float in units of [2^-1074], with
    [+Inf] at the first power of two that overflows. *)
Definition ord (x : spec_float) : Z :=
  match x with
  | S754_finite false m e => Zpos m * 2 ^ (e + 1074)
  | S754_infinity false => TOP
  | _ => 0
  end.

Definition positive_float (x : spec_float) : Prop :=
  match x with
  | S754_finite false _ _ | S754_infinity false => True
  | _ => False
  end.

Definition is_nonneg (x : spec_float) : bool :=
  match x with
  | S754_zero _ | S754_finite false _ _ | S754_infinity false => true
  | _ => false
  end.

(** A float64 that is not NaN and not below zero, and its value. *)
Definition nonneg64 (x : float64) : bool := is_nonneg (SF_of x).
Definition val (x : float64) : Z := ord (SF_of x).

(** One unit of an integer, [2^1074] units of [2^-1074]. *)
Definition unit_scale : Z := 2 ^ 1074.
(** ** The counter *)

Definition error : Set := string.

(** [Labels] is a map that may be [nil]. *)
Definition Labels : Set := option (list (string * string)).

(** Modelled from the spec: the type [dto.Exemplar] is declared outside of
    this file; an exemplar is an immutable record of a value, a timestamp
    and a set of labels. *)
Record Exemplar (Time : Type) : Type := {
  ex_value : float64;
  ex_timestamp : Time;
  ex_labels : list (string * string)
}.

Inductive ValueType : Set := CounterValue | GaugeValue | UntypedValue.

(** The collaborators of this file: the instants of the clock, label
    pairs, the protobuf timestamp and message, [newExemplar] and
    [populateMetric]. *)
Class Externals : Type := {
  Time : Type;
  LabelPair : Type;
  Timestamp : Type;
  DtoMetric : Type;
  newExemplar :
    float64 -> Time -> list (string * string) -> Exemplar Time + error;
  populateMetric :
    ValueType -> float64 -> list LabelPair -> option (Exemplar Time) ->
    DtoMetric -> Timestamp -> DtoMetric * option error
}.

Inductive register : Set := reg_valBits | reg_change.

(** Addition of [uint64]. *)
Definition add64 (a b : Z) : Z := (a + b) mod 2 ^ 64.

Section Counter.
Context {P : Platform} {E : Externals}.

(** [valBits] and [change] are the two registers, [exemplar] is the slot
    of the [atomic.Value]. *)
Record counter : Type := {
  valBits : Z;
  change : Z;
  exemplar : option (Exemplar Time)
}.

(** The fields that never change after construction. *)
Record counter_info : Type := {
  labelPairs : list LabelPair;
  createdTs : Timestamp;
  now : unit -> Time
}.

(** The registers of a counter that [NewCounter] returns. *)
Definition new_counter : counter :=
  {| valBits := 0; change := 0; exemplar := None |}.

(** *** Atomic actions

    Each call into [sync/atomic] is one indivisible action on the
    counter; a method is a tree of such actions. *)
Inductive action : Type -> Type :=
| LoadUint64 (r : register) : action Z
| CompareAndSwapUint64 (r : register) (old new : Z) : action bool
| StoreUint64 (r : register) (v : Z) : action unit
| AddUint64 (r : register) (delta : Z) : action Z
| ExemplarLoad : action (option (Exemplar Time))
| ExemplarStore (e : Exemplar Time) : action unit.

Inductive prog (A : Type) : Type :=
| Ret (a : A)
| Panic (e : error)
| Spin
| Act (B : Type) (a : action B) (k : B -> prog A).

#[global] Arguments Ret {A} a.
#[global] Arguments Panic {A} e.
#[global] Arguments Spin {A}.
#[global] Arguments Act {A B} a k.

Fixpoint bind {A B : Type} (p : prog A) (f : A -> prog B) : prog B :=
  match p with
  | Ret a => f a
  | Panic e => Panic e
  | Spin => Spin
  | Act a k => Act a (fun b => bind (k b) f)
  end.

Definition call {B : Type} (a : action B) : prog B := Act a Ret.

Definition read_reg (r : register) (c : counter) : Z :=
  match r with reg_valBits => valBits c | reg_change => change c end.

Definition write_reg (r : register) (v : Z) (c : counter) : counter :=
  match r with
  | reg_valBits =>
      {| valBits := v; change := change c; exemplar := exemplar c |}
  | reg_change =>
      {| valBits := valBits c; change := v; exemplar := exemplar c |}
  end.

Definition perform {B : Type} (a : action B) (c : counter) : B * counter :=
  match a in action T return T * counter with
  | LoadUint64 r => (read_reg r c, c)
  | CompareAndSwapUint64 r old new =>
      if read_reg r c =? old then (true, write_reg r new c) else (false, c)
  | StoreUint64 r v => (tt, write_reg r v c)
  | AddUint64 r delta =>
      let v := add64 (read_reg r c) delta in (v, write_reg r v c)
  | ExemplarLoad => (exemplar c, c)
  | ExemplarStore e =>
      (tt, {| valBits := valBits c; change := change c; exemplar := Some e |})
  end.

(** How a call ends: it returns, it panics, or the unrolling of its loop
    is used up while it is still retrying. *)
Inductive outcome (A : Type) : Type :=
| Returned (a : A) (c : counter)
| Panicked (e : error) (c : counter)
| Retrying (c : counter).

#[global] Arguments Returned {A} a c.
#[global] Arguments Panicked {A} e c.
#[global] Arguments Retrying {A} c.

Inductive event : Type :=
| Did (B : Type) (a : action B).

#[global] Arguments Did {B} a.

(** A call with no other goroutine running: the actions are performed one
    after the other; the result is the list of the actions performed and
    the way the call ends. *)
Fixpoint run {A : Type} (p : prog A) (c : counter) : list event * outcome A :=
  match p with
  | Ret a => ([], Returned a c)
  | Panic e => ([], Panicked e c)
  | Spin => ([], Retrying c)
  | Act a k =>
      let (b, c') := perform a c in
      let (tr, o) := run (k b) c' in
      (Did a :: tr, o)
  end.

(** A call among other goroutines: before the [n]-th action of the call
    the others turn the counter [c] into [others n c].  Each action is
    listed with the counter it was performed on. *)
Fixpoint run_among {A : Type} (others : nat -> counter -> counter) (n : nat)
    (p : prog A) (c : counter) : list (event * counter) * outcome A :=
  match p with
  | Ret a => ([], Returned a c)
  | Panic e => ([], Panicked e c)
  | Spin => ([], Retrying c)
  | Act a k =>
      let c1 := others n c in
      let (b, c') := perform a c1 in
      let (tr, o) := run_among others (S n) (k b) c' in
      ((Did a, c1) :: tr, o)
  end.

(** Whether an action is on the [change] register. *)
Definition on_change (e : event) : bool :=
  match e with
  | Did a =>
      match a with
      | LoadUint64 reg_change
      | CompareAndSwapUint64 reg_change _ _
      | StoreUint64 reg_change _
      | AddUint64 reg_change _ => true
      | _ => false
      end
  end.

(** *** The methods of [counter] *)

Definition addWithRoundingErrorChecking (base addend : float64)
  : float64 * bool :=
  if feqb addend fzero then (base, false)
  else
    let sum := fadd base addend in
    (sum, feqb sum base).

Definition errCannotDecrease : error :=
  "counter cannot decrease in value"%string.

(** The [for] loop of [Add], unrolled [fuel] times. *)
Fixpoint Add_loop (fuel : nat) (v : float64) : prog unit :=
  match fuel with
  | O => Spin
  | S fuel' =>
      bind (call (LoadUint64 reg_valBits)) (fun oldBits =>
      let (newF, hasRoundingErr) :=
        addWithRoundingErrorChecking (Float64frombits oldBits) v in
      if hasRoundingErr then
        let u := uint64_of_float64 v in
        bind (call (LoadUint64 reg_change)) (fun oldChange =>
        let (newF, isChangeSmall) :=
          addWithRoundingErrorChecking (Float64frombits oldBits)
            (float64_of_uint64 (add64 oldChange u)) in
        if isChangeSmall then
          bind (call (CompareAndSwapUint64 reg_change oldChange
                        (add64 oldChange u)))
               (fun swapped => if swapped then Ret tt else Add_loop fuel' v)
        else
          let newBits := Float64bits newF in
          bind (call (CompareAndSwapUint64 reg_valBits oldBits newBits))
               (fun swapped =>
                  if swapped then call (StoreUint64 reg_change 0)
                  else Add_loop fuel' v))
      else
        let newBits := Float64bits newF in
        bind (call (CompareAndSwapUint64 reg_valBits oldBits newBits))
             (fun swapped => if swapped then Ret tt else Add_loop fuel' v))
  end.

Definition Add (fuel : nat) (v : float64) : prog unit :=
  if fltb v fzero then Panic errCannotDecrease else Add_loop fuel v.

Definition updateExemplar (i : counter_info) (v : float64) (l : Labels)
  : prog unit :=
  match l with
  | None => Ret tt
  | Some ls =>
      match newExemplar v (now i tt) ls with
      | inr err => Panic err
      | inl e => call (ExemplarStore e)
      end
  end.

Definition AddWithExemplar (i : counter_info) (fuel : nat) (v : float64)
    (e : Labels) : prog unit :=
  bind (Add fuel v) (fun _ => updateExemplar i v e).

Definition Inc : prog unit :=
  bind (call (AddUint64 reg_change 1)) (fun _ => Ret tt).

Definition get : prog float64 :=
  bind (call (LoadUint64 reg_valBits)) (fun bits =>
  bind (call (LoadUint64 reg_change)) (fun ival =>
  Ret (fadd (Float64frombits bits) (float64_of_uint64 ival)))).

Definition Write (i : counter_info) (out : DtoMetric)
  : prog (DtoMetric * option error) :=
  bind (call ExemplarLoad) (fun e =>
  bind get (fun val =>
  Ret (populateMetric CounterValue val (labelPairs i) e out (createdTs i)))).

(** *** Sequences of calls on one counter *)

(** What [get] returns on a counter at rest. *)
Definition value_of (c : counter) : float64 :=
  match snd (run get c) with
  | Returned x _ => x
  | _ => fzero
  end.

Inductive operation : Set :=
| OpInc
| OpAdd (delta : float64).

Definition method (fuel : nat) (o : operation) : prog unit :=
  match o with
  | OpInc => Inc
  | OpAdd delta => Add fuel delta
  end.

(** The counter that a call leaves. *)
Definition after {A : Type} (p : prog A) (c : counter) : counter :=
  match snd (run p c) with
  | Returned _ c' | Panicked _ c' | Retrying c' => c'
  end.

Fixpoint after_all (fuel : nat) (ops : list operation) (c : counter)
  : counter :=
  match ops with
  | [] => c
  | o :: rest => after_all fuel rest (after (method fuel o) c)
  end.

Definition nonneg_delta (o : operation) : Prop :=
  match o with
  | OpInc => True
  | OpAdd delta => fleb fzero delta = true
  end.

(** Whether the call adds to [change] past [2^64 - 1]. *)
Definition wraps_change (o : operation) (c : counter) : bool :=
  match o with
  | OpInc => 2 ^ 64 <=? change c + 1
  | OpAdd delta =>
      snd (addWithRoundingErrorChecking (Float64frombits (valBits c)) delta)
      && (2 ^ 64 <=? change c + uint64_of_float64 delta)
  end.

(** A counter whose [valBits] holds a float that is zero or more and
    whose [change] is a [uint64]: every counter reached from [NewCounter]
    through [Inc] and [Add] is one. *)
Definition steady (c : counter) : Prop :=
  nonneg64 (Float64frombits (valBits c)) = true /\ 0 <= change c < 2 ^ 64.

End Counter.

(** ** The vector of counters

    [CounterVec] embeds a [*MetricVec], whose lookup is outside of this
    file: it is a parameter.  Its metrics are built by the closure that
    [NewCounterVec] passes, so every metric is a counter and the type
    assertion [metric.(Counter)] is the identity. *)
Section CounterVec.
Variables MetricVec Counter : Type.
Variable MetricVec_GetMetricWithLabelValues :
  MetricVec -> list string -> (option Counter * option error) * MetricVec.

Definition GetMetricWithLabelValues (v : MetricVec) (lvs : list string)
  : (option Counter * option error) * MetricVec :=
  let '((metric, err), v') := MetricVec_GetMetricWithLabelValues v lvs in
  match metric with
  | Some m => ((Some m, err), v')
  | None => ((None, err), v')
  end.

(** The left case is the counter returned, the right case a panic. *)
Definition WithLabelValues (v : MetricVec) (lvs : list string)
  : (option Counter + error) * MetricVec :=
  let '((c, err), v') := GetMetricWithLabelValues v lvs in
  match err with
  | Some e => (inr e, v')
  | None => (inl c, v')
  end.

End CounterVec.

(** Modelled from the spec: [MetricVec.GetMetricWithLabelValues] is outside
    of this file.  The lookup fails when the number of values is not the
    number of free label positions; otherwise it returns the counter
    stored for these values, and stores a new one at the first lookup. *)
Record vec_model : Set := {
  free_labels : list string;
  stored : list (list string * nat)
}.

Definition errInconsistentCardinality : error :=
  "inconsistent label cardinality"%string.

Definition vec_model_lookup (v : vec_model) (lvs : list string)
  : (option nat * option error) * vec_model :=
  if Nat.eqb (List.length lvs) (List.length (free_labels v)) then
    match
      find (fun kv => if list_eq_dec string_dec (fst kv) lvs then true else false)
           (stored v)
    with
    | Some kv => ((Some (snd kv), None), v)
    | None =>
        let c := List.length (stored v) in
        ((Some c, None),
         {| free_labels := free_labels v; stored := (lvs, c) :: stored v |})
    end
  else ((None, Some errInconsistentCardinality), v).

(** ** Concrete inputs *)

(** Collaborators to run examples with. *)
Definition example_externals : Externals :=
  {| Time := Z;
     LabelPair := string * string;
     Timestamp := Z;
     DtoMetric := unit;
     newExemplar := fun v t l =>
       inl {| ex_value := v; ex_timestamp := t; ex_labels := l |};
     populateMetric := fun _ _ _ _ out _ => (out, None) |}.

(** The float64 [2^k], for [-1022 <= k <= 1023]. *)
Definition pow2_float (k : Z) : float64 := Float64frombits ((k + 1023) * 2 ^ 52).

Definition f_one : float64 := pow2_float 0.
Definition f_minus_one : float64 := Float64frombits (2 ^ 63 + 1023 * 2 ^ 52).

(** A counter with given registers and no exemplar. *)
Definition counter_at (bits carry : Z) : @counter example_externals :=
  {| valBits := bits; change := carry; exemplar := None |}.

Definition example_vec : vec_model :=
  {| free_labels := ["code"; "method"]%string; stored := [] |}.

Definition example_info : @counter_info example_externals :=
  @Build_counter_info example_externals [] 0 (fun _ => 0).

(** Four calls that reach a counter on which an [Add] of [2^63] wraps
    [change]. *)
Definition wrapping_prefix : list operation :=
  [OpAdd (pow2_float 116); OpAdd (pow2_float 63); OpAdd (pow2_float 10); OpInc].

(** Sixty-five calls of [Add] that reach [2^120] in [valBits] and
    [2^64 - 1] in [change]: each [2^k] below [2^64] is lost in the
    rounding of [2^120 + 2^k] and is banked. *)
Definition banking_prefix : list operation :=
  OpAdd (pow2_float 120)
  :: map (fun k => OpAdd (pow2_float (Z.of_nat k))) (seq 0 64).

(** ** The other lookups of the vector

    [GetMetricWith], [With], [CurryWith] and [MustCurryWith] wrap the
    methods of the embedded [*MetricVec] in the same way; these methods
    are outside of this file and are parameters.  A [*CounterVec] is
    modelled by the [*MetricVec] it embeds. *)
Section CounterVecByLabels.
Variables MetricVec Counter : Type.
Variable MetricVec_GetMetricWith :
  MetricVec -> Labels -> (option Counter * option error) * MetricVec.
Variable MetricVec_CurryWith :
  MetricVec -> Labels -> option MetricVec * option error.

Definition GetMetricWith (v : MetricVec) (labels : Labels)
  : (option Counter * option error) * MetricVec :=
  let '((metric, err), v') := MetricVec_GetMetricWith v labels in
  match metric with
  | Some m => ((Some m, err), v')
  | None => ((None, err), v')
  end.

(** The left case is the counter returned, the right case a panic. *)
Definition With (v : MetricVec) (labels : Labels)
  : (option Counter + error) * MetricVec :=
  let '((c, err), v') := GetMetricWith v labels in
  match err with
  | Some e => (inr e, v')
  | None => (inl c, v')
  end.

Definition CurryWith (v : MetricVec) (labels : Labels)
  : option MetricVec * option error :=
  let '(vec, err) := MetricVec_CurryWith v labels in
  match vec with
  | Some vec' => (Some vec', err)
  | None => (None, err)
  end.

Definition MustCurryWith (v : MetricVec) (labels : Labels)
  : option MetricVec + error :=
  let '(vec, err) := CurryWith v labels in
  match err with
  | Some e => inr e
  | None => inl vec
  end.

End CounterVecByLabels.

(** ** One interference *)

Section Interference.
Context {E : Externals}.

(** The other goroutines act once, by [g], just before the action of
    index [k] of the call, and not otherwise. *)
Definition only_at (k : nat) (g : counter -> counter)
  : nat -> counter -> counter :=
  fun n c => if Nat.eqb n k then g c else c.

End Interference.

(** Collaborators whose [newExemplar] rejects every set of labels. *)
Definition rejecting_externals : Externals :=
  {| Time := Z;
     LabelPair := string * string;
     Timestamp := Z;
     DtoMetric := unit;
     newExemplar := fun _ _ _ => inr "invalid exemplar labels"%string;
     populateMetric := fun _ _ _ _ out _ => (out, None) |}.

Definition rejecting_info : @counter_info rejecting_externals :=
  @Build_counter_info rejecting_externals [] 0 (fun _ => 0).

Definition rejecting_counter_at (bits carry : Z) : @counter rejecting_externals :=
  @Build_counter rejecting_externals bits carry None.

(** A lookup by labels to run examples with: it fails on [nil] labels
    and returns the counter 0 otherwise. *)
Definition example_lookup_by_labels (v : vec_model) (labels : Labels)
  : (option nat * option error) * vec_model :=
  match labels with
  | None => ((None, Some "nil labels"%string), v)
  | Some _ => ((Some 0%nat, None), v)
  end.

(** A currying to run examples with: it fails on [nil] labels and
    returns the vector as it is otherwise. *)
Definition example_curry (v : vec_model) (labels : Labels)
  : option vec_model * option error :=
  match labels with
  | None => (None, Some "nil labels"%string)
  | Some _ => (Some v, None)
  end.

(** Another goroutine that adds [1.0] to [valBits] of the counter of
    [NewCounter]. *)
Definition other_adds_one (c : @counter example_externals)
  : @counter example_externals :=
  @write_reg example_externals reg_valBits (Float64bits f_one) c.

(** ** Properties of the arithmetic *)

Lemma digits2_pos_bounds (m : positive) :
  2 ^ (Zpos (digits2_pos m) - 1) <= Zpos m < 2 ^ Zpos (digits2_pos m).
Proof.
  induction m as [m IH | m IH |]; cbn [digits2_pos].
  - rewrite Pos2Z.inj_succ.
    replace (Z.succ (Zpos (digits2_pos m)) - 1) with (Z.succ (Zpos (digits2_pos m) - 1)) by lia.
    rewrite !Z.pow_succ_r by lia. lia.
  - rewrite Pos2Z.inj_succ.
    replace (Z.succ (Zpos (digits2_pos m)) - 1) with (Z.succ (Zpos (digits2_pos m) - 1)) by lia.
    rewrite !Z.pow_succ_r by lia. lia.
  - simpl. lia.
Qed.

Lemma iter_pos_nat {A} (f : A -> A) (p : positive) (x : A) :
  iter_pos f p x = Nat.iter (Pos.to_nat p) f x.
Proof.
  revert x; induction p as [p IH | p IH |]; intros x; cbn [iter_pos].
  - rewrite !IH, Pos2Nat.inj_xI.
    replace (S (2 * Pos.to_nat p)) with (Pos.to_nat p + (Pos.to_nat p + 1))%nat by lia.
    rewrite !Nat.iter_add. reflexivity.
  - rewrite !IH, Pos2Nat.inj_xO.
    replace (2 * Pos.to_nat p)%nat with (Pos.to_nat p + Pos.to_nat p)%nat by lia.
    rewrite Nat.iter_add. reflexivity.
  - reflexivity.
Qed.

Lemma iter_xO (m d : positive) : Zpos (Pos.iter xO m d) = Zpos m * 2 ^ Zpos d.
Proof.
  induction d as [|d IH] using Pos.peano_ind.
  - simpl. lia.
  - rewrite Pos.iter_succ, Pos2Z.inj_succ, Z.pow_succ_r by lia.
    rewrite Pos2Z.inj_xO, IH. lia.
Qed.

Lemma shr_1_spec (m : Z) (r s : bool) :
  0 <= m ->
  shr_1 {| shr_m := m; shr_r := r; shr_s := s |} =
  {| shr_m := m / 2; shr_r := Z.odd m; shr_s := r || s |}.
Proof.
  intros Hm. rewrite <- Z.div2_div.
  destruct m as [|[p|p|]|p]; try reflexivity. lia.
Qed.

Lemma mod_pow2_succ (m k : Z) :
  0 <= k -> m mod 2 ^ (k + 1) = 2 ^ k * ((m / 2 ^ k) mod 2) + m mod 2 ^ k.
Proof.
  intros Hk. rewrite Z.pow_add_r, Z.pow_1_r by lia.
  rewrite Z.rem_mul_r by lia. lia.
Qed.

Lemma shifted_step (m k : Z) :
  0 <= m -> 1 <= k -> shr_1 (shifted m k) = shifted m (k + 1).
Proof.
  intros Hm Hk. unfold shifted.
  rewrite shr_1_spec by (apply Z.div_pos; lia).
  replace (k + 1 - 1) with k by lia.
  f_equal.
  - rewrite Z.div_div by lia. f_equal.
    rewrite Z.pow_add_r by lia. reflexivity.
  - replace k with ((k - 1) + 1) at 3 by lia.
    rewrite mod_pow2_succ by lia.
    assert (H2 : 0 < 2 ^ (k - 1)) by (apply Z.pow_pos_nonneg; lia).
    pose proof (Z.mod_pos_bound m (2 ^ (k - 1)) H2) as Hb.
    rewrite Zodd_mod.
    pose proof (Z.mod_pos_bound (m / 2 ^ (k - 1)) 2 ltac:(lia)) as Hc.
    destruct (Z.eqb_spec ((m / 2 ^ (k - 1)) mod 2) 1) as [E|E];
    destruct (Z.eqb_spec (m mod 2 ^ (k - 1)) 0) as [F|F]; simpl;
    symmetry; try (apply negb_true_iff; apply Z.eqb_neq; nia);
    apply negb_false_iff; apply Z.eqb_eq; nia.
Qed.

Lemma shifted_iter (m : Z) (k : nat) :
  0 <= m ->
  Nat.iter (S k) shr_1 {| shr_m := m; shr_r := false; shr_s := false |} =
  shifted m (Z.of_nat (S k)).
Proof.
  intros Hm. induction k as [|k IH].
  - cbn [Nat.iter nat_rect]. rewrite shr_1_spec by lia. unfold shifted. simpl.
    rewrite Z.div_1_r, Z.mod_1_r. reflexivity.
  - change (Nat.iter (S (S k)) shr_1 ?x) with (shr_1 (Nat.iter (S k) shr_1 x)).
    rewrite IH, shifted_step by lia. f_equal. lia.
Qed.

Lemma shr_exact_spec (m e n : Z) :
  0 <= m ->
  shr {| shr_m := m; shr_r := false; shr_s := false |} e n =
  if 0 <? n then (shifted m n, e + n)
  else ({| shr_m := m; shr_r := false; shr_s := false |}, e).
Proof.
  intros Hm. destruct n as [|p|p]; try reflexivity.
  cbn [shr]. rewrite iter_pos_nat.
  destruct (Pos2Nat.is_succ p) as [k Hk]. rewrite Hk, shifted_iter by lia.
  rewrite <- Hk, positive_nat_Z. reflexivity.
Qed.

Lemma shl_align_spec (m : positive) (e e' : Z) :
  e' <= e ->
  Zpos (fst (shl_align m e e')) = Zpos m * 2 ^ (e - e') /\
  snd (shl_align m e e') = e'.
Proof.
  intros H. unfold shl_align.
  destruct (e' - e) as [|p|p] eqn:E; try lia.
  - replace (e - e') with 0 by lia. simpl. split; lia.
  - cbn [fst snd]. rewrite iter_xO. replace (e - e') with (Zpos p) by lia. auto.
Qed.

Lemma shl_align_id (m : positive) (e e' : Z) :
  e <= e' -> shl_align m e e' = (m, e).
Proof.
  intros H. unfold shl_align. destruct (e' - e) as [|p|p] eqn:E; try reflexivity. lia.
Qed.

Lemma Zdigits2_bounds (x : Z) :
  0 < x -> 2 ^ (Zdigits2 x - 1) <= x < 2 ^ Zdigits2 x.
Proof.
  destruct x as [|p|p]; try lia. intros _. apply digits2_pos_bounds.
Qed.

Lemma Zdigits2_pos (x : Z) : 0 < x -> 0 < Zdigits2 x.
Proof. destruct x; simpl; lia. Qed.

Lemma Zdigits2_unique (x k : Z) :
  0 < x -> 2 ^ (k - 1) <= x < 2 ^ k -> Zdigits2 x = k.
Proof.
  intros Hx [Hl Hu].
  pose proof (Zdigits2_bounds x Hx) as [Hl' Hu'].
  pose proof (Zdigits2_pos x Hx) as Hd.
  assert (Hk : 0 < k).
  { destruct (Z.ltb_spec 0 k); auto.
    rewrite Z.pow_neg_r in Hl by lia.
    destruct (Z.eq_dec k 0) as [->|]; [simpl in Hu; lia|].
    rewrite Z.pow_neg_r in Hu by lia. lia. }
  destruct (Z.lt_trichotomy (Zdigits2 x) k) as [H|[H|H]]; auto.
  - assert (2 ^ Zdigits2 x <= 2 ^ (k - 1)) by (apply Z.pow_le_mono_r; lia). lia.
  - assert (2 ^ k <= 2 ^ (Zdigits2 x - 1)) by (apply Z.pow_le_mono_r; lia). lia.
Qed.

Lemma Zdigits2_mul_pow2 (x k : Z) :
  0 < x -> 0 <= k -> Zdigits2 (x * 2 ^ k) = Zdigits2 x + k.
Proof.
  intros Hx Hk.
  pose proof (Zdigits2_bounds x Hx) as [Hl Hu].
  pose proof (Zdigits2_pos x Hx) as Hd.
  assert (H2 : 0 < 2 ^ k) by (apply Z.pow_pos_nonneg; lia).
  apply Zdigits2_unique; [nia|].
  replace (Zdigits2 x + k - 1) with ((Zdigits2 x - 1) + k) by lia.
  rewrite !Z.pow_add_r by lia. nia.
Qed.

Lemma round_nearest_even_shifted (m n : Z) :
  round_nearest_even (shr_m (shifted m n)) (loc_of_shr_record (shifted m n)) =
  m / 2 ^ n + (if round_up m n then 1 else 0).
Proof.
  unfold shifted, round_up, loc_of_shr_record, round_nearest_even; cbn [shr_m].
  rewrite <- Z.negb_odd.
  destruct (Z.odd (m / 2 ^ (n - 1))), (m mod 2 ^ (n - 1) =? 0),
    (Z.odd (m / 2 ^ n)); simpl; lia.
Qed.

Lemma fexp_eq (e : Z) : fexp prec emax e = Z.max (e - 53) (-1074).
Proof. reflexivity. Qed.

(** No bit is to be dropped: the mantissa is kept as it is. *)
Lemma binary_round_aux_exact (s : bool) (m : positive) (e : Z) :
  Z.max (Zpos (digits2_pos m) + e - 53) (-1074) = e ->
  binary_round_aux prec emax s (Zpos m) e loc_Exact =
  if e <=? 971 then S754_finite s m e else S754_infinity s.
Proof.
  intros H. unfold binary_round_aux, shr_fexp.
  cbn [Zdigits2 shr_record_of_loc]. rewrite fexp_eq, H, Z.sub_diag.
  cbn [shr round_nearest_even loc_of_shr_record shr_m Zdigits2].
  rewrite fexp_eq, H, Z.sub_diag. cbn [shr shr_m]. reflexivity.
Qed.

Lemma quotient_53_bits (m : positive) (n : Z) :
  0 <= n -> n = Zpos (digits2_pos m) - 53 ->
  2 ^ 52 <= Zpos m / 2 ^ n < 2 ^ 53.
Proof.
  intros Hn Hd. pose proof (digits2_pos_bounds m) as [Hl Hu].
  assert (H2 : 0 < 2 ^ n) by (apply Z.pow_pos_nonneg; lia).
  replace (Zpos (digits2_pos m) - 1) with (52 + n) in Hl by lia.
  replace (Zpos (digits2_pos m)) with (53 + n) in Hu by lia.
  rewrite Z.pow_add_r in Hl, Hu by lia.
  split.
  - apply Z.div_le_lower_bound; lia.
  - apply Z.div_lt_upper_bound; lia.
Qed.

(** [n > 0] bits are to be dropped: the quotient is rounded, and shifted
    once more when the rounding carries into a 54th bit. *)
Lemma binary_round_aux_round (s : bool) (m : positive) (e n : Z) :
  n = Zpos (digits2_pos m) - 53 -> 0 < n -> -1074 <= e ->
  binary_round_aux prec emax s (Zpos m) e loc_Exact =
  let m1 := Zpos m / 2 ^ n + (if round_up (Zpos m) n then 1 else 0) in
  if m1 <? 2 ^ 53 then
    if e + n <=? 971 then S754_finite s (Z.to_pos m1) (e + n)
    else S754_infinity s
  else
    if e + n + 1 <=? 971 then S754_finite s (Z.to_pos (2 ^ 52)) (e + n + 1)
    else S754_infinity s.
Proof.
  intros Hd Hn He.
  pose proof (quotient_53_bits m n ltac:(lia) Hd) as Hq.
  unfold binary_round_aux, shr_fexp.
  cbn [Zdigits2 shr_record_of_loc]. rewrite fexp_eq.
  replace (Z.max (Zpos (digits2_pos m) + e - 53) (-1074) - e) with n by lia.
  rewrite shr_exact_spec by lia.
  destruct (Z.ltb_spec 0 n) as [_|]; [|lia].
  rewrite round_nearest_even_shifted.
  set (m1 := Zpos m / 2 ^ n + (if round_up (Zpos m) n then 1 else 0)).
  assert (Hm1 : 2 ^ 52 <= m1 <= 2 ^ 53)
    by (subst m1; destruct (round_up (Zpos m) n); lia).
  cbv zeta.
  destruct (Z.ltb_spec m1 (2 ^ 53)) as [Hlt|Hge].
  - assert (Hdig : Zdigits2 m1 = 53) by (apply Zdigits2_unique; simpl in *; lia).
    rewrite Hdig, fexp_eq.
    replace (Z.max (53 + (e + n) - 53) (-1074) - (e + n)) with 0 by lia.
    cbn [shr shr_m].
    destruct m1 as [|p|p]; try (simpl in Hm1; lia). reflexivity.
  - assert (Em1 : m1 = 2 ^ 53) by lia. rewrite Em1.
    change (Zdigits2 (2 ^ 53)) with 54. rewrite fexp_eq.
    replace (Z.max (54 + (e + n) - 53) (-1074) - (e + n)) with 1 by lia.
    cbn [shr iter_pos shr_1 shr_m Z.pow Z.pow_pos Pos.iter Z.mul Pos.mul].
    reflexivity.
Qed.

Lemma round_up_scale (m n k : Z) :
  0 < m -> 0 < n -> 0 <= k ->
  round_up (m * 2 ^ k) (n + k) = round_up m n.
Proof.
  intros Hm Hn Hk. unfold round_up.
  assert (H2 : 0 < 2 ^ k) by (apply Z.pow_pos_nonneg; lia).
  assert (H3 : 0 < 2 ^ (n - 1)) by (apply Z.pow_pos_nonneg; lia).
  replace (n + k - 1) with ((n - 1) + k) by lia.
  rewrite !Z.pow_add_r by lia.
  rewrite !Z.div_mul_cancel_r by lia.
  rewrite Z.mul_mod_distr_r by lia.
  f_equal. f_equal. f_equal.
  destruct (Z.eqb_spec (m mod 2 ^ (n - 1)) 0) as [E|E].
  - rewrite E. reflexivity.
  - apply Z.eqb_neq. nia.
Qed.

Lemma pow2_split (a b : Z) : 0 <= a -> 0 <= b -> 2 ^ (a + b) = 2 ^ a * 2 ^ b.
Proof. intros. apply Z.pow_add_r; lia. Qed.

Lemma pow2_pos (a : Z) : 0 <= a -> 0 < 2 ^ a.
Proof. intros. apply Z.pow_pos_nonneg; lia. Qed.

(** [binary_round] on a positive mantissa and an exponent not below the
    smallest one: the result is a valid positive float whose value is the
    rounding of the exact one, or [+Inf] from [TOP] on. *)
Theorem binary_round_ord (m : positive) (e : Z) :
  -1074 <= e ->
  let r := binary_round prec emax false m e in
  valid_binary prec emax r = true /\ positive_float r /\
  ord r = Z.min (rne (Zpos m * 2 ^ (e + 1074))) TOP.
Proof.
  intros He.
  pose proof (digits2_pos_bounds m) as [Hl Hu].
  set (d := Zpos (digits2_pos m)) in *.
  assert (Hd : 0 < d) by (subst d; lia).
  assert (Hk : 0 < 2 ^ (e + 1074)) by (apply pow2_pos; lia).
  assert (HdN : Zdigits2 (Zpos m * 2 ^ (e + 1074)) = d + (e + 1074))
    by (rewrite Zdigits2_mul_pow2 by lia; reflexivity).
  unfold binary_round. rewrite fexp_eq. fold d.
  destruct (Z.le_gt_cases (Z.max (d + e - 53) (-1074)) e) as [Hfe|Hfe].
  - (* the mantissa has at most 53 bits: it is aligned, nothing is lost *)
    set (fe := Z.max (d + e - 53) (-1074)) in *.
    destruct (shl_align_spec m e fe Hfe) as [Hm' He'].
    destruct (shl_align m e fe) as [m' e']. cbn [fst snd] in Hm', He'. subst e'.
    assert (Hs : 0 < 2 ^ (e - fe)) by (apply pow2_pos; lia).
    assert (Hdig : Zpos (digits2_pos m') = d + (e - fe)).
    { change (Zdigits2 (Zpos m') = d + (e - fe)).
      rewrite Hm', Zdigits2_mul_pow2 by lia. reflexivity. }
    rewrite binary_round_aux_exact by (rewrite Hdig; lia).
    assert (HN : Zpos m * 2 ^ (e + 1074) = Zpos m' * 2 ^ (fe + 1074)).
    { rewrite Hm'. replace (e + 1074) with ((e - fe) + (fe + 1074)) by lia.
      rewrite pow2_split by lia. lia. }
    assert (Hrne : rne (Zpos m * 2 ^ (e + 1074)) = Zpos m * 2 ^ (e + 1074)).
    { unfold rne. rewrite HdN.
      destruct (Z.ltb_spec 0 (d + (e + 1074) - 53)) as [Hn|Hn]; [|reflexivity].
      assert (Efe : fe = d + e - 53) by lia.
      set (n := d + (e + 1074) - 53) in *.
      assert (En : n = fe + 1074) by lia.
      assert (Hup : round_up (Zpos m * 2 ^ (e + 1074)) n = false).
      { rewrite HN. unfold round_up.
        replace (fe + 1074) with (1 + (n - 1)) by lia.
        rewrite pow2_split by lia.
        assert (0 < 2 ^ (n - 1)) by (apply pow2_pos; lia).
        rewrite Z.mul_assoc, Z.div_mul by lia.
        change (2 ^ 1) with 2. rewrite Z.mul_comm, Z.odd_mul. reflexivity. }
      rewrite Hup, HN, <- En, Z.div_mul by (apply Z.pow_nonzero; lia). lia. }
    rewrite Hrne.
    assert (Hm'b : 2 ^ (d + (e - fe) - 1) <= Zpos m' < 2 ^ (d + (e - fe))).
    { rewrite <- Hdig. apply digits2_pos_bounds. }
    destruct (Z.leb_spec fe 971) as [Hle|Hgt].
    + cbn [valid_binary positive_float ord]. unfold bounded, canonical_mantissa.
      rewrite fexp_eq, Hdig.
      repeat split.
      * apply andb_true_intro; split; [apply Z.eqb_eq; lia | apply Z.leb_le; simpl; lia].
      * rewrite HN. symmetry. apply Z.min_l.
        assert (d + (e - fe) <= 53) by lia.
        assert (Zpos m' < 2 ^ 53).
        { eapply Z.lt_le_trans; [apply Hm'b | apply Z.pow_le_mono_r; lia]. }
        assert (2 ^ (fe + 1074) <= 2 ^ 2045) by (apply Z.pow_le_mono_r; lia).
        assert (0 < 2 ^ (fe + 1074)) by (apply pow2_pos; lia).
        unfold TOP. change (2 ^ 2098) with (2 ^ 53 * 2 ^ 2045). nia.
    + cbn [valid_binary positive_float ord].
      repeat split. symmetry. apply Z.min_r.
      rewrite HN.
      assert (d + (e - fe) = 53) by lia.
      assert (2 ^ 52 <= Zpos m').
      { replace 52 with (d + (e - fe) - 1) by lia. apply Hm'b. }
      assert (2 ^ 2046 <= 2 ^ (fe + 1074)) by (apply Z.pow_le_mono_r; lia).
      unfold TOP. change (2 ^ 2098) with (2 ^ 52 * 2 ^ 2046). nia.
  - (* more than 53 bits: the low ones are rounded away *)
    assert (Efe : Z.max (d + e - 53) (-1074) = d + e - 53) by lia.
    rewrite Efe in *.
    rewrite shl_align_id by lia.
    set (n := d - 53).
    rewrite (binary_round_aux_round false m e n) by (subst n d; lia).
    pose proof (quotient_53_bits m n ltac:(lia) ltac:(subst n d; lia)) as Hq.
    assert (Hn2 : 0 < 2 ^ n) by (apply pow2_pos; lia).
    assert (Hrne : rne (Zpos m * 2 ^ (e + 1074)) =
                   (Zpos m / 2 ^ n + (if round_up (Zpos m) n then 1 else 0))
                   * 2 ^ (n + (e + 1074))).
    { unfold rne. rewrite HdN.
      replace (d + (e + 1074) - 53) with (n + (e + 1074)) by lia.
      destruct (Z.ltb_spec 0 (n + (e + 1074))) as [_|]; [|lia].
      rewrite round_up_scale by lia.
      rewrite (pow2_split n) by lia.
      rewrite Z.div_mul_cancel_r by lia. reflexivity. }
    rewrite Hrne. cbv zeta.
    set (m1 := Zpos m / 2 ^ n + (if round_up (Zpos m) n then 1 else 0)).
    assert (Hm1 : 2 ^ 52 <= m1 <= 2 ^ 53)
      by (subst m1; destruct (round_up (Zpos m) n); lia).
    assert (Hpn : 0 < 2 ^ (n + (e + 1074))) by (apply pow2_pos; lia).
    destruct (Z.ltb_spec m1 (2 ^ 53)) as [Hlt|Hge].
    + assert (Hdig : Zdigits2 m1 = 53) by (apply Zdigits2_unique; simpl in *; lia).
      destruct m1 as [|p|p] eqn:Ep; try (simpl in Hm1; lia).
      cbn [Z.to_pos]. cbn [Zdigits2] in Hdig.
      destruct (Z.leb_spec (e + n) 971) as [Hle|Hgt].
      * cbn [valid_binary positive_float ord]. unfold bounded, canonical_mantissa.
        rewrite fexp_eq. injection Hdig as Hdig. rewrite Hdig.
        repeat split.
        -- apply andb_true_intro; split; [apply Z.eqb_eq; lia | apply Z.leb_le; simpl; lia].
        -- replace (e + n + 1074) with (n + (e + 1074)) by lia.
           symmetry. apply Z.min_l.
           assert (2 ^ (n + (e + 1074)) <= 2 ^ 2045) by (apply Z.pow_le_mono_r; lia).
           unfold TOP. change (2 ^ 2098) with (2 ^ 53 * 2 ^ 2045). nia.
      * cbn [valid_binary positive_float ord].
        repeat split. symmetry. apply Z.min_r.
        assert (2 ^ 2046 <= 2 ^ (n + (e + 1074))) by (apply Z.pow_le_mono_r; lia).
        unfold TOP. change (2 ^ 2098) with (2 ^ 52 * 2 ^ 2046). nia.
    + assert (Em1 : m1 = 2 ^ 53) by lia.
      destruct (Z.leb_spec (e + n + 1) 971) as [Hle|Hgt].
      * cbn [valid_binary positive_float ord].
        repeat split.
        -- unfold bounded, canonical_mantissa. rewrite fexp_eq.
           change (Zpos (digits2_pos (Z.to_pos (2 ^ 52)))) with 53.
           apply andb_true_intro; split; [apply Z.eqb_eq; lia | apply Z.leb_le; simpl; lia].
        -- rewrite Em1. replace (e + n + 1 + 1074) with (1 + (n + (e + 1074))) by lia.
           rewrite (pow2_split 1) by lia.
           change (Zpos (Z.to_pos (2 ^ 52))) with (2 ^ 52).
           assert (2 ^ (n + (e + 1074)) <= 2 ^ 2044) by (apply Z.pow_le_mono_r; lia).
           unfold TOP. lia.
      * cbn [valid_binary positive_float ord].
        repeat split. symmetry. apply Z.min_r. rewrite Em1.
        assert (2 ^ 2045 <= 2 ^ (n + (e + 1074))) by (apply Z.pow_le_mono_r; lia).
        unfold TOP. change (2 ^ 2098) with (2 ^ 53 * 2 ^ 2045). nia.
Qed.

(** *** Rounding is monotone and keeps what needs no rounding *)

Lemma round_up_split (N n : Z) :
  0 <= N -> 0 < n ->
  exists q b r,
    N = (2 * q + b) * 2 ^ (n - 1) + r /\ 0 <= r < 2 ^ (n - 1) /\
    0 <= b <= 1 /\ 0 <= q /\ N / 2 ^ n = q /\
    round_up N n = (b =? 1) && (negb (r =? 0) || Z.odd q).
Proof.
  intros HN Hn.
  assert (HP : 0 < 2 ^ (n - 1)) by (apply pow2_pos; lia).
  exists (N / 2 ^ n), ((N / 2 ^ (n - 1)) mod 2), (N mod 2 ^ (n - 1)).
  assert (E : N / 2 ^ n = N / 2 ^ (n - 1) / 2).
  { rewrite Z.div_div by lia. f_equal.
    replace n with ((n - 1) + 1) at 1 by lia. rewrite pow2_split by lia. reflexivity. }
  pose proof (Z.div_mod N (2 ^ (n - 1)) ltac:(lia)) as D1.
  pose proof (Z.div_mod (N / 2 ^ (n - 1)) 2 ltac:(lia)) as D2.
  pose proof (Z.mod_pos_bound N (2 ^ (n - 1)) HP) as B1.
  pose proof (Z.mod_pos_bound (N / 2 ^ (n - 1)) 2 ltac:(lia)) as B2.
  assert (E1 : N = (2 * (N / 2 ^ n) + (N / 2 ^ (n - 1)) mod 2) * 2 ^ (n - 1)
                  + N mod 2 ^ (n - 1)).
  { rewrite E. rewrite <- D2. lia. }
  assert (E2 : 0 <= N / 2 ^ n) by (apply Z.div_pos; [lia | apply pow2_pos; lia]).
  assert (E3 : round_up N n =
               ((N / 2 ^ (n - 1)) mod 2 =? 1) &&
               (negb (N mod 2 ^ (n - 1) =? 0) || Z.odd (N / 2 ^ n))).
  { unfold round_up. rewrite Zodd_mod. reflexivity. }
  repeat split; auto; lia.
Qed.

Lemma rne_bounds (N : Z) :
  0 < N -> 2 ^ (Zdigits2 N - 1) <= rne N <= 2 ^ Zdigits2 N.
Proof.
  intros HN. pose proof (Zdigits2_bounds N HN) as [Hl Hu].
  unfold rne. destruct (Z.ltb_spec 0 (Zdigits2 N - 53)) as [Hn|Hn]; [|lia].
  set (n := Zdigits2 N - 53) in *.
  assert (Hq : 2 ^ 52 <= N / 2 ^ n < 2 ^ 53).
  { assert (H2 : 0 < 2 ^ n) by (apply pow2_pos; lia).
    replace (Zdigits2 N - 1) with (52 + n) in Hl by lia.
    replace (Zdigits2 N) with (53 + n) in Hu by lia.
    rewrite pow2_split in Hl, Hu by lia.
    split; [apply Z.div_le_lower_bound | apply Z.div_lt_upper_bound]; lia. }
  assert (H2 : 0 < 2 ^ n) by (apply pow2_pos; lia).
  replace (Zdigits2 N - 1) with (52 + n) by lia.
  replace (Zdigits2 N) with (53 + n) by lia.
  rewrite !pow2_split by lia.
  destruct (round_up N n); nia.
Qed.

Lemma Zdigits2_mono (N N' : Z) : 0 < N -> N <= N' -> Zdigits2 N <= Zdigits2 N'.
Proof.
  intros HN Hle.
  pose proof (Zdigits2_bounds N HN) as [Hl _].
  pose proof (Zdigits2_bounds N' ltac:(lia)) as [_ Hu].
  destruct (Z.le_gt_cases (Zdigits2 N) (Zdigits2 N')) as [|H]; auto.
  assert (2 ^ Zdigits2 N' <= 2 ^ (Zdigits2 N - 1)) by (apply Z.pow_le_mono_r; lia).
  lia.
Qed.

Lemma rne_0 : rne 0 = 0.
Proof. reflexivity. Qed.

Lemma rne_nonneg (N : Z) : 0 <= N -> 0 <= rne N.
Proof.
  intros HN. destruct (Z.eq_dec N 0) as [->|]; [rewrite rne_0; lia|].
  pose proof (rne_bounds N ltac:(lia)) as [H _].
  pose proof (Zdigits2_pos N ltac:(lia)).
  assert (0 < 2 ^ (Zdigits2 N - 1)) by (apply pow2_pos; lia). lia.
Qed.

Lemma rne_positive (N : Z) : 0 < N -> 0 < rne N.
Proof.
  intros HN. pose proof (rne_bounds N HN) as [H _].
  pose proof (Zdigits2_pos N HN).
  assert (0 < 2 ^ (Zdigits2 N - 1)) by (apply pow2_pos; lia). lia.
Qed.

Theorem rne_mono (N N' : Z) : 0 <= N -> N <= N' -> rne N <= rne N'.
Proof.
  intros HN Hle.
  destruct (Z.eq_dec N 0) as [->|HN0]; [rewrite rne_0; apply rne_nonneg; lia|].
  pose proof (Zdigits2_mono N N' ltac:(lia) Hle) as Hd.
  destruct (Z.eq_dec (Zdigits2 N) (Zdigits2 N')) as [Ed|Ed].
  - unfold rne. rewrite <- Ed.
    destruct (Z.ltb_spec 0 (Zdigits2 N - 53)) as [Hn|Hn]; [|lia].
    set (n := Zdigits2 N - 53) in *.
    destruct (round_up_split N n ltac:(lia) Hn)
      as (q & b & r & HNq & Hr & Hb & Hq & Eq & Up).
    destruct (round_up_split N' n ltac:(lia) Hn)
      as (q' & b' & r' & HNq' & Hr' & Hb' & Hq' & Eq' & Up').
    rewrite Eq, Eq', Up, Up'.
    assert (HP : 0 < 2 ^ (n - 1)) by (apply pow2_pos; lia).
    assert (E2n : 2 ^ n = 2 * 2 ^ (n - 1)).
    { replace n with (1 + (n - 1)) at 1 by lia. rewrite pow2_split by lia.
      reflexivity. }
    rewrite E2n.
    set (p := 2 ^ (n - 1)) in *.
    assert (Hqq : q <= q') by nia.
    destruct (Z.eq_dec q q') as [<-|Hne].
    + assert (Hbb : b <= b') by nia.
      destruct (Z.eqb_spec b 1) as [Eb|Eb]; cbn [andb];
      destruct (Z.eqb_spec b' 1) as [Eb'|Eb']; cbn [andb]; try lia.
      * assert (Hrr : r <= r') by nia.
        destruct (Z.odd q); [rewrite !orb_true_r; lia|rewrite !orb_false_r].
        destruct (Z.eqb_spec r 0), (Z.eqb_spec r' 0); cbn [negb]; try nia.
      * destruct (negb (r' =? 0) || Z.odd q); nia.
    + destruct ((b =? 1) && (negb (r =? 0) || Z.odd q)),
        ((b' =? 1) && (negb (r' =? 0) || Z.odd q')); nia.
  - pose proof (rne_bounds N ltac:(lia)) as [_ Hu].
    pose proof (rne_bounds N' ltac:(lia)) as [Hl _].
    assert (2 ^ Zdigits2 N <= 2 ^ (Zdigits2 N' - 1)) by (apply Z.pow_le_mono_r; lia).
    lia.
Qed.

(** A mantissa of at most 53 bits, at any scale, is kept. *)
Lemma rne_exact (m k : Z) :
  0 <= m -> Zdigits2 m <= 53 -> 0 <= k -> rne (m * 2 ^ k) = m * 2 ^ k.
Proof.
  intros Hm Hd Hk.
  destruct (Z.eq_dec m 0) as [->|Hm0]; [reflexivity|].
  unfold rne. rewrite Zdigits2_mul_pow2 by lia.
  destruct (Z.ltb_spec 0 (Zdigits2 m + k - 53)) as [Hn|Hn]; [|reflexivity].
  set (n := Zdigits2 m + k - 53) in *.
  assert (Hup : round_up (m * 2 ^ k) n = false).
  { unfold round_up.
    replace k with ((k - n) + 1 + (n - 1)) at 1 by lia.
    rewrite !pow2_split by lia.
    assert (0 < 2 ^ (n - 1)) by (apply pow2_pos; lia).
    rewrite !Z.mul_assoc, Z.div_mul by lia.
    change (2 ^ 1) with 2. rewrite Z.odd_mul. change (Z.odd 2) with false.
    rewrite andb_false_r. reflexivity. }
  rewrite Hup.
  assert (E : 2 ^ k = 2 ^ (k - n) * 2 ^ n).
  { rewrite <- pow2_split by lia. f_equal. lia. }
  rewrite E, Z.mul_assoc, Z.div_mul by (apply Z.pow_nonzero; lia). lia.
Qed.

(** *** Valid non-negative floats and their values *)

Lemma valid_finite (s : bool) (m : positive) (e : Z) :
  valid_binary prec emax (S754_finite s m e) = true ->
  -1074 <= e <= 971 /\ Zpos (digits2_pos m) <= 53 /\
  (e = -1074 \/ Zpos (digits2_pos m) = 53) /\
  Zpos m < 2 ^ 53 /\ (-1074 < e -> 2 ^ 52 <= Zpos m).
Proof.
  cbn [valid_binary]. unfold bounded, canonical_mantissa. rewrite fexp_eq.
  intros H. apply andb_prop in H as [H1 H2].
  apply Z.eqb_eq in H1. apply Z.leb_le in H2. change (emax - prec) with 971 in H2.
  pose proof (digits2_pos_bounds m) as [Hl Hu].
  assert (Hd : Zpos (digits2_pos m) <= 53) by lia.
  repeat split; try lia.
  - eapply Z.lt_le_trans; [apply Hu | apply Z.pow_le_mono_r; lia].
  - intros He. replace (Zpos (digits2_pos m)) with 53 in Hl by lia. exact Hl.
Qed.

Lemma TOP_pos : 0 < TOP.
Proof. reflexivity. Qed.

Lemma rne_TOP : rne TOP = TOP.
Proof.
  change TOP with (1 * 2 ^ 2098). apply rne_exact; [lia | simpl; lia | lia].
Qed.

Lemma valid_ord (x : spec_float) :
  valid_binary prec emax x = true -> is_nonneg x = true ->
  rne (ord x) = ord x /\ 0 <= ord x <= TOP.
Proof.
  intros Hv Hn. pose proof TOP_pos.
  destruct x as [s|[|]| |[|] m e]; try discriminate; cbn [ord].
  - split; [reflexivity | lia].
  - split; [apply rne_TOP | lia].
  - apply valid_finite in Hv as (He & Hd & _ & Hm & _).
    split; [apply rne_exact; simpl; lia|].
    assert (0 < 2 ^ (e + 1074)) by (apply pow2_pos; lia).
    assert (2 ^ (e + 1074) <= 2 ^ 2045) by (apply Z.pow_le_mono_r; lia).
    unfold TOP. change (2 ^ 2098) with (2 ^ 53 * 2 ^ 2045). nia.
Qed.

Lemma finite_ord_bounds (m : positive) (e : Z) :
  valid_binary prec emax (S754_finite false m e) = true ->
  0 < ord (S754_finite false m e) < TOP.
Proof.
  intros Hv. apply valid_finite in Hv as (He & Hd & _ & Hm & _). cbn [ord].
  assert (0 < 2 ^ (e + 1074)) by (apply pow2_pos; lia).
  assert (2 ^ (e + 1074) <= 2 ^ 2045) by (apply Z.pow_le_mono_r; lia).
  unfold TOP. change (2 ^ 2098) with (2 ^ 53 * 2 ^ 2045). nia.
Qed.

(** On valid non-negative floats the comparison of [SpecFloat] is the
    comparison of the values. *)
Theorem SFcompare_ord (x y : spec_float) :
  valid_binary prec emax x = true -> valid_binary prec emax y = true ->
  is_nonneg x = true -> is_nonneg y = true ->
  SFcompare x y = Some (ord x ?= ord y).
Proof.
  intros Vx Vy Nx Ny. pose proof TOP_pos.
  destruct x as [sx|[|]| |[|] mx ex]; try discriminate;
  destruct y as [sy|[|]| |[|] my ey]; try discriminate;
  try pose proof (finite_ord_bounds _ _ Vx) as Bx;
  try pose proof (finite_ord_bounds _ _ Vy) as By;
  cbn [SFcompare]; f_equal; symmetry;
  try (apply Z.compare_eq_iff; reflexivity);
  try (apply Z.compare_lt_iff; cbn [ord] in *; lia);
  try (apply Z.compare_gt_iff; cbn [ord] in *; lia).
  apply valid_finite in Vx as (Hex & Hdx & _ & Hmx & Hnx).
  apply valid_finite in Vy as (Hey & Hdy & _ & Hmy & Hny).
  cbn [ord].
  destruct (Z.compare_spec ex ey) as [E|L|G].
  - subst ey. rewrite Pos.compare_cont_spec. cbn [Pos.switch_Eq].
    assert (0 < 2 ^ (ex + 1074)) by (apply pow2_pos; lia).
    change ((mx ?= my)%positive) with (Zpos mx ?= Zpos my).
    destruct (Z.compare_spec (Zpos mx) (Zpos my)) as [E|L|G].
    + rewrite E. apply Z.compare_refl.
    + apply Z.compare_lt_iff. nia.
    + apply Z.compare_gt_iff. nia.
  - apply Z.compare_lt_iff.
    assert (0 < 2 ^ (ex + 1074)) by (apply pow2_pos; lia).
    assert (E : 2 ^ (ey + 1074) = 2 ^ (ey - ex - 1) * 2 * 2 ^ (ex + 1074)).
    { change 2 with (2 ^ 1) at 3. rewrite <- !pow2_split by lia. f_equal. lia. }
    assert (0 < 2 ^ (ey - ex - 1)) by (apply pow2_pos; lia).
    specialize (Hny ltac:(lia)). rewrite E.
    change (2 ^ 53) with (2 * 2 ^ 52) in Hmx. nia.
  - apply Z.compare_gt_iff.
    assert (0 < 2 ^ (ey + 1074)) by (apply pow2_pos; lia).
    assert (E : 2 ^ (ex + 1074) = 2 ^ (ex - ey - 1) * 2 * 2 ^ (ey + 1074)).
    { change 2 with (2 ^ 1) at 3. rewrite <- !pow2_split by lia. f_equal. lia. }
    assert (0 < 2 ^ (ex - ey - 1)) by (apply pow2_pos; lia).
    specialize (Hnx ltac:(lia)). rewrite E.
    change (2 ^ 53) with (2 * 2 ^ 52) in Hmy. nia.
Qed.

Lemma positive_float_nonneg (r : spec_float) :
  positive_float r -> is_nonneg r = true.
Proof. destruct r as [|[|]| |[|]]; simpl; tauto. Qed.

Lemma rne_above_TOP (N : Z) : TOP <= N -> Z.min (rne N) TOP = TOP.
Proof.
  intros HN. pose proof TOP_pos.
  pose proof (rne_mono TOP N ltac:(lia) HN) as H1.
  rewrite rne_TOP in H1. lia.
Qed.

Lemma rne_valid (x : spec_float) :
  valid_binary prec emax x = true -> is_nonneg x = true ->
  Z.min (rne (ord x)) TOP = ord x.
Proof.
  intros V N. destruct (valid_ord x V N) as [-> B]. lia.
Qed.

(** The sum of two valid non-negative floats is the rounding of the exact
    sum of their values, or [+Inf] from [TOP] on. *)
Theorem SFadd_ord (x y : spec_float) :
  valid_binary prec emax x = true -> valid_binary prec emax y = true ->
  is_nonneg x = true -> is_nonneg y = true ->
  valid_binary prec emax (SFadd prec emax x y) = true /\
  is_nonneg (SFadd prec emax x y) = true /\
  ord (SFadd prec emax x y) = Z.min (rne (ord x + ord y)) TOP.
Proof.
  intros Vx Vy Nx Ny.
  destruct x as [sx|[|]| |[|] mx ex]; try discriminate Nx;
  destruct y as [sy|[|]| |[|] my ey]; try discriminate Ny.
  - destruct sx, sy; cbn [SFadd]; (split; [|split]); reflexivity.
  - cbn [SFadd]. split; [|split]; [reflexivity..|]. symmetry. apply rne_above_TOP. cbn [ord]. lia.
  - cbn [SFadd]. split; [|split]; auto.
    change (ord (S754_zero sx)) with 0. rewrite Z.add_0_l. symmetry.
    apply rne_valid; auto.
  - cbn [SFadd]. split; [|split]; [reflexivity..|]. symmetry. apply rne_above_TOP. cbn [ord]. lia.
  - cbn [SFadd]. split; [|split]; [reflexivity..|]. symmetry. apply rne_above_TOP. cbn [ord].
    pose proof TOP_pos. lia.
  - cbn [SFadd]. split; [|split]; [reflexivity..|]. symmetry. apply rne_above_TOP.
    pose proof (finite_ord_bounds _ _ Vy).
    change (ord (S754_infinity false)) with TOP. lia.
  - cbn [SFadd]. split; [|split]; auto.
    change (ord (S754_zero sy)) with 0. rewrite Z.add_0_r. symmetry.
    apply rne_valid; auto.
  - cbn [SFadd]. split; [|split]; [reflexivity..|]. symmetry. apply rne_above_TOP.
    pose proof (finite_ord_bounds _ _ Vx).
    change (ord (S754_infinity false)) with TOP. lia.
  - cbn [SFadd].
    pose proof (valid_finite _ _ _ Vx) as (Hex & _).
    pose proof (valid_finite _ _ _ Vy) as (Hey & _).
    destruct (shl_align_spec mx ex (Z.min ex ey) ltac:(lia)) as [Ex _].
    destruct (shl_align_spec my ey (Z.min ex ey) ltac:(lia)) as [Ey _].
    cbn [cond_Zopp]. cbn [Z.add binary_normalize].
    set (p := (fst (shl_align mx ex (Z.min ex ey)) +
               fst (shl_align my ey (Z.min ex ey)))%positive).
    pose proof (binary_round_ord p (Z.min ex ey) ltac:(lia)) as (V & Pp & O).
    split; [exact V|]. split; [apply positive_float_nonneg; exact Pp|].
    rewrite O. f_equal. f_equal. cbn [ord]. subst p.
    rewrite Pos2Z.inj_add, Ex, Ey, Z.mul_add_distr_r, <- !Z.mul_assoc.
    rewrite <- !pow2_split by lia.
    f_equal; f_equal; f_equal; lia.
Qed.

(** *** Patterns and decoded values *)

Lemma join_bits_fields (s : bool) (e m : Z) :
  0 <= e < 2 ^ 11 -> 0 <= m < 2 ^ 52 ->
  sign_of (join_bits s e m) = s /\
  exponent_of (join_bits s e m) = e /\
  fraction_of (join_bits s e m) = m.
Proof.
  intros He Hm. unfold sign_of, exponent_of, fraction_of, join_bits.
  set (sb := if s then 1 else 0).
  assert (Hsb : 0 <= sb <= 1) by (subst sb; destruct s; lia).
  assert (E : (if s then 2 ^ 63 else 0) + e * 2 ^ 52 + m
              = (sb * 2 ^ 11 + e) * 2 ^ 52 + m)
    by (subst sb; destruct s; lia).
  rewrite E; clear E.
  assert (D : ((sb * 2 ^ 11 + e) * 2 ^ 52 + m) / 2 ^ 52 = sb * 2 ^ 11 + e).
  { symmetry. apply (Z.div_unique _ _ _ m); lia. }
  assert (D2 : ((sb * 2 ^ 11 + e) * 2 ^ 52 + m) / 2 ^ 63 = sb).
  { symmetry. apply (Z.div_unique _ _ _ (e * 2 ^ 52 + m)); lia. }
  split; [|split].
  - rewrite D2. rewrite Z.mod_small by lia. subst sb. destruct s; reflexivity.
  - rewrite D. symmetry. apply (Z.mod_unique _ _ sb); lia.
  - symmetry. apply (Z.mod_unique _ _ (sb * 2 ^ 11 + e)); lia.
Qed.

Lemma digits2_pos_le (m : positive) (k : Z) :
  Zpos m < 2 ^ k -> Zpos (digits2_pos m) <= k.
Proof.
  intros H. pose proof (digits2_pos_bounds m) as [Hl _].
  destruct (Z.le_gt_cases (Zpos (digits2_pos m)) k) as [|G]; auto.
  assert (2 ^ k <= 2 ^ (Zpos (digits2_pos m) - 1)) by (apply Z.pow_le_mono_r; lia).
  lia.
Qed.

(** Every pattern decodes to a valid float. *)
Lemma SF_of_bits_valid (b : Z) : valid_binary prec emax (SF_of_bits b) = true.
Proof.
  unfold SF_of_bits.
  pose proof (Z.mod_pos_bound b (2 ^ 52) ltac:(lia)) as Hm. fold (fraction_of b) in Hm.
  pose proof (Z.mod_pos_bound (b / 2 ^ 52) (2 ^ 11) ltac:(lia)) as He.
  fold (exponent_of b) in He.
  destruct (Z.eqb_spec (exponent_of b) 0) as [E0|E0].
  - destruct (fraction_of b) as [|p|p] eqn:Ef; try reflexivity.
    cbn [valid_binary]. unfold bounded, canonical_mantissa. rewrite fexp_eq.
    pose proof (digits2_pos_le p 52 ltac:(lia)).
    apply andb_true_intro; split; [apply Z.eqb_eq; lia | reflexivity].
  - destruct (Z.eqb_spec (exponent_of b) 2047) as [E1|E1].
    + destruct (fraction_of b =? 0); reflexivity.
    + destruct (fraction_of b + 2 ^ 52) as [|p|p] eqn:Ef; try reflexivity.
      cbn [valid_binary]. unfold bounded, canonical_mantissa. rewrite fexp_eq.
      assert (Hd : Zpos (digits2_pos p) = 53).
      { change (Zdigits2 (Zpos p) = 53). apply Zdigits2_unique; lia. }
      rewrite Hd.
      apply andb_true_intro; split; [apply Z.eqb_eq; lia | apply Z.leb_le].
      change (emax - prec) with 971. change (2 ^ 11) with 2048 in He. lia.
Qed.

(** Encoding a valid float and decoding the pattern gives it back. *)
Lemma SF_of_bits_of_SF (nan : Z) (x : spec_float) :
  valid_binary prec emax x = true -> x <> S754_nan ->
  SF_of_bits (bits_of_SF nan x) = x.
Proof.
  intros V N. destruct x as [s|s| |s m e]; try congruence.
  - destruct s; reflexivity.
  - destruct s; reflexivity.
  - apply valid_finite in V as (He & Hd & Hc & Hm & Hn).
    cbn [bits_of_SF]. unfold SF_of_bits.
    destruct (Z.ltb_spec (Zpos m) (2 ^ 52)) as [Hs|Hb].
    + destruct (join_bits_fields s 0 (Zpos m) ltac:(lia) ltac:(lia)) as (-> & -> & ->).
      cbn [Z.eqb]. f_equal.
      destruct Hc as [|Hc]; [lia|].
      pose proof (digits2_pos_le m 52 Hs). lia.
    + assert (He' : -1074 <= e) by lia.
      destruct (join_bits_fields s (e + 1075) (Zpos m - 2 ^ 52)
                  ltac:(change (2 ^ 11) with 2048; lia)
                  ltac:(change (2 ^ 53) with (2 ^ 52 + 2 ^ 52) in Hm; lia))
        as (-> & -> & ->).
      destruct (Z.eqb_spec (e + 1075) 0); [lia|].
      destruct (Z.eqb_spec (e + 1075) 2047); [lia|].
      replace (Zpos m - 2 ^ 52 + 2 ^ 52) with (Zpos m) by lia.
      f_equal. lia.
Qed.

(** *** The operations of float64 on non-negative values *)

Lemma SF_of_valid (x : float64) : valid_binary prec emax (SF_of x) = true.
Proof. apply SF_of_bits_valid. Qed.

Lemma is_nonneg_not_nan (x : spec_float) : is_nonneg x = true -> x <> S754_nan.
Proof. destruct x; simpl; congruence. Qed.

Lemma val_fixed (x : float64) :
  nonneg64 x = true -> rne (val x) = val x /\ 0 <= val x <= TOP.
Proof. intros H. apply valid_ord; [apply SF_of_valid | exact H]. Qed.

Lemma SFcompare_refl (x : spec_float) :
  x <> S754_nan -> SFcompare x x = Some Eq.
Proof.
  destruct x as [s|s| |s m e]; intros H; try congruence.
  - reflexivity.
  - destruct s; reflexivity.
  - cbn [SFcompare]. rewrite Z.compare_refl, Pos.compare_cont_refl.
    destruct s; reflexivity.
Qed.

Lemma feqb_not_nan (x y : float64) :
  feqb x y = true -> SF_of x <> S754_nan /\ SF_of y <> S754_nan.
Proof.
  unfold feqb, SFeqb. destruct (SF_of x), (SF_of y); simpl; try discriminate;
    split; congruence.
Qed.

Lemma feqb_val (x y : float64) :
  nonneg64 x = true -> nonneg64 y = true -> feqb x y = (val x =? val y).
Proof.
  intros Hx Hy. unfold feqb, SFeqb.
  rewrite (SFcompare_ord _ _ (SF_of_valid x) (SF_of_valid y) Hx Hy).
  fold (val x) (val y).
  destruct (Z.compare_spec (val x) (val y)) as [E|L|G]; symmetry.
  - apply Z.eqb_eq; exact E.
  - apply Z.eqb_neq; lia.
  - apply Z.eqb_neq; lia.
Qed.

Lemma fltb_val (x y : float64) :
  nonneg64 x = true -> nonneg64 y = true -> fltb x y = (val x <? val y).
Proof.
  intros Hx Hy. unfold fltb, SFltb.
  rewrite (SFcompare_ord _ _ (SF_of_valid x) (SF_of_valid y) Hx Hy).
  reflexivity.
Qed.

Lemma fleb_val (x y : float64) :
  nonneg64 x = true -> nonneg64 y = true -> fleb x y = (val x <=? val y).
Proof.
  intros Hx Hy. unfold fleb, SFleb.
  rewrite (SFcompare_ord _ _ (SF_of_valid x) (SF_of_valid y) Hx Hy).
  fold (val x) (val y). unfold Z.leb.
  destruct (val x ?= val y); reflexivity.
Qed.

(** [0 <= x] says that [x] is neither NaN nor below zero. *)
Lemma fleb_fzero (x : float64) : fleb fzero x = nonneg64 x.
Proof.
  unfold fleb, nonneg64, SFleb. change (SF_of fzero) with (S754_zero false).
  destruct (SF_of x) as [s|[|]| |[|] m e]; reflexivity.
Qed.

Lemma fltb_fzero_nonneg (x : float64) :
  nonneg64 x = true -> fltb x fzero = false.
Proof.
  unfold fltb, nonneg64, SFltb. change (SF_of fzero) with (S754_zero false).
  destruct (SF_of x) as [s|[|]| |[|] m e]; simpl; congruence.
Qed.

Lemma feqb_fzero_nonneg (x : float64) :
  feqb x fzero = true -> nonneg64 x = true /\ val x = 0.
Proof.
  unfold feqb, nonneg64, val, SFeqb. change (SF_of fzero) with (S754_zero false).
  destruct (SF_of x) as [s|[|]| |[|] m e]; simpl; try discriminate; auto.
Qed.

Lemma uint64_scale_below_TOP (n : Z) :
  0 <= n < 2 ^ 64 -> rne (n * unit_scale) < TOP.
Proof.
  intros Hn. unfold unit_scale.
  assert (H : rne (n * 2 ^ 1074) <= rne (2 ^ 64 * 2 ^ 1074))
    by (apply rne_mono; lia).
  assert (E : rne (2 ^ 64 * 2 ^ 1074) = 2 ^ 64 * 2 ^ 1074).
  { change (2 ^ 64 * 2 ^ 1074) with (1 * 2 ^ 1138).
    apply rne_exact; [lia | simpl; lia | lia]. }
  rewrite E in H. unfold TOP.
  change (2 ^ 2098) with (2 ^ 64 * 2 ^ 1074 * 2 ^ 960). lia.
Qed.

(** The conversion of a [uint64] rounds its value. *)
Lemma float64_of_uint64_val (n : Z) :
  0 <= n < 2 ^ 64 ->
  nonneg64 (float64_of_uint64 n) = true /\
  val (float64_of_uint64 n) = rne (n * unit_scale).
Proof.
  intros Hn. unfold nonneg64, val, float64_of_uint64, SF_of. cbn [Float64bits].
  destruct n as [|p|p]; [split; reflexivity | | lia].
  cbn [binary_normalize].
  destruct (binary_round_ord p 0 ltac:(lia)) as (V & Pp & O).
  apply positive_float_nonneg in Pp.
  rewrite SF_of_bits_of_SF by (auto using is_nonneg_not_nan).
  split; [exact Pp|]. rewrite O. change (2 ^ (0 + 1074)) with unit_scale.
  pose proof (uint64_scale_below_TOP (Zpos p) Hn). lia.
Qed.

Lemma float64_of_uint64_zero (n : Z) :
  0 <= n < 2 ^ 64 -> feqb (float64_of_uint64 n) fzero = true -> n = 0.
Proof.
  intros Hn H. apply feqb_fzero_nonneg in H as [_ H].
  destruct (float64_of_uint64_val n Hn) as [_ E]. rewrite E in H.
  destruct (Z.eq_dec n 0) as [|Hne]; auto.
  assert (0 < n * unit_scale) by (unfold unit_scale; lia).
  pose proof (rne_positive _ H0). lia.
Qed.


Lemma truncate_nonneg (m : positive) (e : Z) : 0 <= truncate m e.
Proof.
  unfold truncate. destruct (Z.leb_spec 0 e).
  - apply Z.mul_nonneg_nonneg; [lia | apply Z.pow_nonneg; lia].
  - apply Z.div_pos; [lia | apply pow2_pos; lia].
Qed.

(** Between [truncate m e] and the next integer lies the value. *)
Lemma truncate_integer_part (m : positive) (e : Z) :
  -1074 <= e ->
  truncate m e * unit_scale <= Zpos m * 2 ^ (e + 1074)
  < (truncate m e + 1) * unit_scale.
Proof.
  intros He. unfold truncate, unit_scale.
  destruct (Z.leb_spec 0 e) as [Hp|Hn].
  - rewrite (pow2_split e 1074) by lia.
    assert (0 < 2 ^ 1074) by (apply pow2_pos; lia). lia.
  - assert (E : 2 ^ 1074 = 2 ^ (- e) * 2 ^ (e + 1074)).
    { rewrite <- pow2_split by lia. f_equal. lia. }
    rewrite E.
    assert (Hk : 0 < 2 ^ (- e)) by (apply pow2_pos; lia).
    assert (Hj : 0 < 2 ^ (e + 1074)) by (apply pow2_pos; lia).
    pose proof (Z.div_mod (Zpos m) (2 ^ (- e)) ltac:(lia)) as D.
    pose proof (Z.mod_pos_bound (Zpos m) (2 ^ (- e)) Hk) as B.
    nia.
Qed.

Section ArithmeticFacts.
Context {P : Platform}.

(** The sum of two non-negative float64 is the float that [SFadd] gives,
    and its value is the rounding of the exact sum. *)
Lemma SF_of_fadd (x y : float64) :
  nonneg64 x = true -> nonneg64 y = true ->
  SF_of (fadd x y) = SFadd prec emax (SF_of x) (SF_of y).
Proof.
  intros Hx Hy.
  destruct (SFadd_ord _ _ (SF_of_valid x) (SF_of_valid y) Hx Hy) as (V & N & O).
  unfold fadd, SF_of at 1. cbn [Float64bits].
  apply SF_of_bits_of_SF; auto using is_nonneg_not_nan.
Qed.

Lemma fadd_nonneg (x y : float64) :
  nonneg64 x = true -> nonneg64 y = true ->
  nonneg64 (fadd x y) = true /\
  val (fadd x y) = Z.min (rne (val x + val y)) TOP.
Proof.
  intros Hx Hy.
  destruct (SFadd_ord _ _ (SF_of_valid x) (SF_of_valid y) Hx Hy) as (V & N & O).
  unfold nonneg64, val. rewrite SF_of_fadd by assumption.
  split; [exact N | exact O].
Qed.

(** Adding the float64 of the integer 0 to a float that is not NaN gives
    a float equal to it. *)
Lemma fadd_uint64_zero (x : float64) :
  SF_of x <> S754_nan -> feqb (fadd x (float64_of_uint64 0)) x = true.
Proof.
  intros Hx. unfold feqb, fadd, SF_of at 1. cbn [Float64bits].
  change (SF_of (float64_of_uint64 0)) with (S754_zero false).
  pose proof (SF_of_valid x) as V.
  assert (E : SFadd prec emax (SF_of x) (S754_zero false) =
              match SF_of x with
              | S754_zero _ => S754_zero false
              | _ => SF_of x
              end)
    by (destruct (SF_of x) as [[|]|[|]| |s m e]; reflexivity).
  rewrite E.
  destruct (SF_of x) as [s|s| |s m e] eqn:Ex; try congruence.
  - rewrite SF_of_bits_of_SF by (auto; congruence). destruct s; reflexivity.
  - rewrite SF_of_bits_of_SF by (auto; congruence).
    unfold SFeqb. rewrite SFcompare_refl by congruence. reflexivity.
  - rewrite SF_of_bits_of_SF by (auto; congruence).
    unfold SFeqb. rewrite SFcompare_refl by congruence. reflexivity.
Qed.

Lemma uint64_of_float64_range (v : float64) :
  0 <= uint64_of_float64 v < 2 ^ 64.
Proof.
  unfold uint64_of_float64.
  pose proof (Z.mod_pos_bound (uint64_unrepresentable v) (2 ^ 64) ltac:(lia)).
  destruct (SF_of v) as [s|s| |[|] m e]; try lia.
  - destruct (truncate m e =? 0); lia.
  - pose proof (truncate_nonneg m e).
    destruct (Z.ltb_spec (truncate m e) (2 ^ 64)); lia.
Qed.

(** [uint64(v)] is the integer part of a non-negative [v] below [2^64]. *)
Lemma uint64_of_float64_integer_part (v : float64) :
  nonneg64 v = true -> val v < 2 ^ 64 * unit_scale ->
  uint64_of_float64 v * unit_scale <= val v
  < (uint64_of_float64 v + 1) * unit_scale.
Proof.
  unfold nonneg64, val, uint64_of_float64. intros Hn Hlt.
  pose proof (SF_of_valid v) as V.
  destruct (SF_of v) as [s|[|]| |[|] m e]; try discriminate.
  - cbn [ord]. unfold unit_scale. lia.
  - cbn [ord] in *. apply valid_finite in V as (He & _).
    pose proof (truncate_integer_part m e ltac:(lia)) as T.
    pose proof (truncate_nonneg m e) as T0.
    destruct (Z.ltb_spec (truncate m e) (2 ^ 64)) as [|Hge]; [exact T|].
    exfalso.
    assert (HU : 0 <= unit_scale) by (unfold unit_scale; apply Z.pow_nonneg; lia).
    pose proof (Z.mul_le_mono_nonneg_r _ _ unit_scale HU Hge). lia.
Qed.

End ArithmeticFacts.

(** ** Properties of the counter *)

Section CounterFacts.
Context {P : Platform} {E : Externals}.

Lemma write_valBits_same (c : counter) :
  write_reg reg_valBits (valBits c) c = c.
Proof. destruct c; reflexivity. Qed.

(** One turn of the loop of [Add] ends the call when no other goroutine
    runs: each compare-and-swap finds the value that was just loaded. *)
Lemma run_Add_loop (fuel : nat) (v : float64) (c : counter) :
  run (Add_loop (S fuel) v) c =
  let base := Float64frombits (valBits c) in
  if snd (addWithRoundingErrorChecking base v) then
    let w := add64 (change c) (uint64_of_float64 v) in
    if snd (addWithRoundingErrorChecking base (float64_of_uint64 w)) then
      ([Did (LoadUint64 reg_valBits); Did (LoadUint64 reg_change);
        Did (CompareAndSwapUint64 reg_change (change c) w)],
       Returned tt (write_reg reg_change w c))
    else
      let newBits :=
        Float64bits
          (fst (addWithRoundingErrorChecking base (float64_of_uint64 w))) in
      ([Did (LoadUint64 reg_valBits); Did (LoadUint64 reg_change);
        Did (CompareAndSwapUint64 reg_valBits (valBits c) newBits);
        Did (StoreUint64 reg_change 0)],
       Returned tt (write_reg reg_change 0 (write_reg reg_valBits newBits c)))
  else
    let newBits := Float64bits (fst (addWithRoundingErrorChecking base v)) in
    ([Did (LoadUint64 reg_valBits);
      Did (CompareAndSwapUint64 reg_valBits (valBits c) newBits)],
     Returned tt (write_reg reg_valBits newBits c)).
Proof.
  cbn [Add_loop bind call run perform read_reg]. cbv zeta.
  destruct (addWithRoundingErrorChecking (Float64frombits (valBits c)) v)
    as [newF [|]]; cbn [snd fst].
  - cbn [bind run perform read_reg].
    destruct (addWithRoundingErrorChecking (Float64frombits (valBits c))
                (float64_of_uint64 (add64 (change c) (uint64_of_float64 v))))
      as [newF' [|]]; cbn [snd fst bind run perform read_reg];
      rewrite Z.eqb_refl; reflexivity.
  - cbn [bind run perform read_reg]. rewrite Z.eqb_refl. reflexivity.
Qed.

Lemma run_Add_nonneg (fuel : nat) (v : float64) (c : counter) :
  fltb v fzero = false -> run (Add fuel v) c = run (Add_loop fuel v) c.
Proof. intros H. unfold Add. rewrite H. reflexivity. Qed.

(** C3. [get] loads [valBits], then [change], changes neither, and
    returns the float decoded from [valBits] plus the float of [change]. *)
Theorem get_returns_sum_of_registers (c : counter) :
  run get c =
  ([Did (LoadUint64 reg_valBits); Did (LoadUint64 reg_change)],
   Returned (fadd (Float64frombits (valBits c)) (float64_of_uint64 (change c)))
            c).
Proof. reflexivity. Qed.

(** C4. [Add] of a value below zero panics before any action, so with
    the counter as it was; [Add] of a value that is zero or more returns
    and does not panic. *)
Theorem Add_panics_below_zero (fuel : nat) (v : float64) (c : counter) :
  (fltb v fzero = true ->
   run (Add fuel v) c = ([], Panicked errCannotDecrease c)) /\
  (fleb fzero v = true ->
   exists tr c', run (Add (S fuel) v) c = (tr, Returned tt c')).
Proof.
  split.
  - intros H. unfold Add. rewrite H. reflexivity.
  - intros H. rewrite fleb_fzero in H.
    rewrite run_Add_nonneg by (apply fltb_fzero_nonneg; exact H).
    rewrite run_Add_loop. cbv zeta.
    destruct (snd (addWithRoundingErrorChecking _ v));
      [destruct (snd (addWithRoundingErrorChecking _ _))|]; eauto.
Qed.

(** C6. [Write] loads the exemplar first, then the two registers; the
    record that it hands to [populateMetric] pairs the exemplar found at
    the first action with the value read by the later ones, whatever the
    other goroutines do in between. *)
Theorem Write_reads_exemplar_before_value
    (others : nat -> counter -> counter) (n : nat)
    (i : counter_info) (out : DtoMetric) (c : counter) :
  let c1 := others n c in
  let c2 := others (S n) c1 in
  let c3 := others (S (S n)) c2 in
  run_among others n (Write i out) c =
  ([(Did ExemplarLoad, c1);
    (Did (LoadUint64 reg_valBits), c2);
    (Did (LoadUint64 reg_change), c3)],
   Returned
     (populateMetric CounterValue
        (fadd (Float64frombits (valBits c2)) (float64_of_uint64 (change c3)))
        (labelPairs i) (exemplar c1) out (createdTs i))
     c3).
Proof. reflexivity. Qed.

(** C8. [Add] of zero: the rounding check reports no loss, the call takes
    the direct path (one load and one compare-and-swap of [valBits], no
    action on [change]), returns, and leaves the counter as it was. *)
Theorem Add_zero_is_identity (fuel : nat) (v : float64) (c : counter) :
  feqb v fzero = true ->
  addWithRoundingErrorChecking (Float64frombits (valBits c)) v =
    (Float64frombits (valBits c), false) /\
  run (Add (S fuel) v) c =
    ([Did (LoadUint64 reg_valBits);
      Did (CompareAndSwapUint64 reg_valBits (valBits c) (valBits c))],
     Returned tt c) /\
  value_of (after (Add (S fuel) v) c) = value_of c.
Proof.
  intros H.
  assert (Hc : addWithRoundingErrorChecking (Float64frombits (valBits c)) v =
               (Float64frombits (valBits c), false))
    by (unfold addWithRoundingErrorChecking; rewrite H; reflexivity).
  assert (Hr : run (Add (S fuel) v) c =
               ([Did (LoadUint64 reg_valBits);
                 Did (CompareAndSwapUint64 reg_valBits (valBits c) (valBits c))],
                Returned tt c)).
  { destruct (feqb_fzero_nonneg v H) as [Hn _].
    rewrite run_Add_nonneg by (apply fltb_fzero_nonneg; exact Hn).
    rewrite run_Add_loop. cbv zeta. rewrite Hc. cbn [snd fst Float64bits].
    rewrite write_valBits_same. reflexivity. }
  split; [exact Hc|]. split; [exact Hr|].
  unfold after. rewrite Hr. reflexivity.
Qed.

(** C9. [AddWithExemplar] of a value below zero panics before any action:
    no exemplar is built or stored, and the registers and the exemplar
    slot are as they were, whatever the labels. *)
Theorem AddWithExemplar_panics_below_zero
    (i : counter_info) (fuel : nat) (v : float64) (l : Labels) (c : counter) :
  fltb v fzero = true ->
  run (AddWithExemplar i fuel v l) c = ([], Panicked errCannotDecrease c).
Proof.
  intros H. unfold AddWithExemplar, Add. rewrite H. reflexivity.
Qed.

Lemma rounding_check_base_not_nan (base v : float64) :
  snd (addWithRoundingErrorChecking base v) = true ->
  feqb v fzero = false /\ feqb (fadd base v) base = true /\
  SF_of base <> S754_nan.
Proof.
  unfold addWithRoundingErrorChecking.
  destruct (feqb v fzero); cbn [snd]; [discriminate|].
  intros H. repeat split; auto. apply (feqb_not_nan _ _ H).
Qed.

(** C1. When the rounding check reports a loss for the loaded base, [Add]
    converts [v] to its integer part [u] and returns after one of two
    outcomes: if the base plus the float of [change + u] still equals the
    base, [valBits] is as it was and [change] holds [change + u]; if it
    differs, [valBits] holds the pattern of that sum and [change] is 0.
    The addition of [u] to [change] is the one of [uint64]. *)
Theorem Add_rounding_loss_banks_or_folds
    (fuel : nat) (v : float64) (c : counter) :
  fleb fzero v = true ->
  snd (addWithRoundingErrorChecking (Float64frombits (valBits c)) v) = true ->
  let base := Float64frombits (valBits c) in
  let u := uint64_of_float64 v in
  let w := float64_of_uint64 (add64 (change c) u) in
  (val v < 2 ^ 64 * unit_scale ->
   u * unit_scale <= val v < (u + 1) * unit_scale) /\
  exists tr c',
    run (Add (S fuel) v) c = (tr, Returned tt c') /\
    (feqb (fadd base w) base = true ->
     valBits c' = valBits c /\ change c' = add64 (change c) u) /\
    (feqb (fadd base w) base = false ->
     valBits c' = Float64bits (fadd base w) /\ change c' = 0).
Proof.
  intros Hv Hloss base u w. rewrite fleb_fzero in Hv.
  split; [apply uint64_of_float64_integer_part; exact Hv|].
  destruct (rounding_check_base_not_nan _ _ Hloss) as (_ & _ & Hbase).
  rewrite run_Add_nonneg by (apply fltb_fzero_nonneg; exact Hv).
  rewrite run_Add_loop. cbv zeta. rewrite Hloss.
  fold base u. fold w.
  assert (Hrange : 0 <= add64 (change c) u < 2 ^ 64)
    by (apply Z.mod_pos_bound; lia).
  unfold addWithRoundingErrorChecking.
  destruct (feqb w fzero) eqn:Ew; cbn [snd fst].
  - pose proof (float64_of_uint64_zero _ Hrange Ew) as E0.
    assert (Hsame : feqb (fadd base w) base = true).
    { subst w. rewrite E0. apply fadd_uint64_zero. exact Hbase. }
    eexists _, _. split; [reflexivity|]. rewrite Hsame. cbn [valBits change write_reg].
    split; [intros _; split; [reflexivity | symmetry; exact E0] | discriminate].
  - destruct (feqb (fadd base w) base) eqn:Es;
      eexists _, _; (split; [reflexivity|]); cbn [valBits change write_reg];
      split; try discriminate; intros _; split; reflexivity.
Qed.

(** C2, as the code has it.  The path through [change] is taken exactly
    when [v] is not zero and the base plus [v] equals the base; otherwise
    the call is one load and one compare-and-swap of [valBits], to the
    pattern of the base plus [v], or to the pattern of the base itself
    when [v] is zero. *)
Theorem Add_takes_rounding_path_iff
    (fuel : nat) (v : float64) (c : counter) :
  fleb fzero v = true ->
  let base := Float64frombits (valBits c) in
  let newBits := if feqb v fzero then valBits c else Float64bits (fadd base v) in
  (existsb on_change (fst (run (Add (S fuel) v) c)) = true <->
   feqb v fzero = false /\ feqb (fadd base v) base = true) /\
  (existsb on_change (fst (run (Add (S fuel) v) c)) = false ->
   run (Add (S fuel) v) c =
   ([Did (LoadUint64 reg_valBits);
     Did (CompareAndSwapUint64 reg_valBits (valBits c) newBits)],
    Returned tt (write_reg reg_valBits newBits c))).
Proof.
  intros Hv base newBits. rewrite fleb_fzero in Hv.
  rewrite run_Add_nonneg by (apply fltb_fzero_nonneg; exact Hv).
  rewrite run_Add_loop. cbv zeta. fold base. subst newBits.
  destruct (feqb v fzero) eqn:Ez.
  - assert (Hc : addWithRoundingErrorChecking base v = (base, false))
      by (unfold addWithRoundingErrorChecking; rewrite Ez; reflexivity).
    rewrite Hc. cbn [snd fst existsb on_change orb Float64bits base].
    split; [|reflexivity].
    split; [discriminate | intros [H _]; discriminate].
  - destruct (feqb (fadd base v) base) eqn:Es.
    + assert (Hc : addWithRoundingErrorChecking base v = (fadd base v, true))
        by (unfold addWithRoundingErrorChecking; rewrite Ez, Es; reflexivity).
      rewrite Hc. cbn [snd fst].
      destruct (snd (addWithRoundingErrorChecking base _));
        cbn [fst existsb on_change orb]; (split; [tauto | discriminate]).
    + assert (Hc : addWithRoundingErrorChecking base v = (fadd base v, false))
        by (unfold addWithRoundingErrorChecking; rewrite Ez, Es; reflexivity).
      rewrite Hc. cbn [snd fst existsb on_change orb]. split; [|reflexivity].
      split; [discriminate | intros [_ H]; discriminate].
Qed.

(** *** What [get] returns along a sequence of calls *)

Lemma value_of_eq (c : counter) :
  value_of c =
  fadd (Float64frombits (valBits c)) (float64_of_uint64 (change c)).
Proof. reflexivity. Qed.

Lemma value_of_steady (c : counter) :
  steady c ->
  nonneg64 (value_of c) = true /\
  val (value_of c) =
  Z.min (rne (val (Float64frombits (valBits c))
              + rne (change c * unit_scale))) TOP.
Proof.
  intros [Hb Hc]. rewrite value_of_eq.
  destruct (float64_of_uint64_val (change c) Hc) as [Hn Hv].
  destruct (fadd_nonneg _ _ Hb Hn) as [Hs Hsv].
  split; [exact Hs|]. rewrite Hsv, Hv. reflexivity.
Qed.

Lemma rounded_sum_mono (B B' n n' : Z) :
  0 <= B <= B' -> 0 <= n <= n' ->
  Z.min (rne (B + rne (n * unit_scale))) TOP
  <= Z.min (rne (B' + rne (n' * unit_scale))) TOP.
Proof.
  intros HB Hn.
  assert (HU : 0 <= unit_scale) by (unfold unit_scale; apply Z.pow_nonneg; lia).
  assert (H1 : rne (n * unit_scale) <= rne (n' * unit_scale)).
  { apply rne_mono; [apply Z.mul_nonneg_nonneg; lia|].
    apply Z.mul_le_mono_nonneg_r; lia. }
  assert (H0 : 0 <= rne (n * unit_scale))
    by (apply rne_nonneg; apply Z.mul_nonneg_nonneg; lia).
  assert (H2 : rne (B + rne (n * unit_scale))
               <= rne (B' + rne (n' * unit_scale)))
    by (apply rne_mono; lia).
  lia.
Qed.

Lemma steady_value_le (c c' : counter) :
  steady c -> steady c' ->
  val (Float64frombits (valBits c)) <= val (Float64frombits (valBits c')) ->
  change c <= change c' ->
  fleb (value_of c) (value_of c') = true.
Proof.
  intros Hs Hs' HB Hn.
  destruct (value_of_steady c Hs) as [N V].
  destruct (value_of_steady c' Hs') as [N' V'].
  rewrite fleb_val, V, V' by assumption. apply Z.leb_le.
  destruct Hs as [Hb Hc]. destruct (val_fixed _ Hb) as [_ Hr].
  apply rounded_sum_mono; lia.
Qed.

(** The value of a sum of non-negative floats is not below the value of
    its first term. *)
Lemma fadd_nonneg_ge (x y : float64) :
  nonneg64 x = true -> nonneg64 y = true -> val x <= val (fadd x y).
Proof.
  intros Hx Hy. destruct (fadd_nonneg x y Hx Hy) as [_ ->].
  destruct (val_fixed x Hx) as [Fx Bx]. destruct (val_fixed y Hy) as [_ By].
  pose proof (rne_mono (val x) (val x + val y) ltac:(lia) ltac:(lia)) as H.
  rewrite Fx in H. lia.
Qed.

Lemma Float64frombits_bits (x : float64) : Float64frombits (Float64bits x) = x.
Proof. destruct x; reflexivity. Qed.

(** One call of [Inc] or of [Add] with a value that is zero or more, on a
    steady counter: it returns, the counter stays steady, and what [get]
    returns does not go down unless the call wraps [change]. *)
Lemma call_on_steady (fuel : nat) (o : operation) (c : counter) :
  steady c -> nonneg_delta o ->
  exists tr c',
    run (method (S fuel) o) c = (tr, Returned tt c') /\ steady c' /\
    (wraps_change o c = false -> fleb (value_of c) (value_of c') = true).
Proof.
  intros Hs Ho. pose proof Hs as [Hb Hc].
  destruct o as [|v]; cbn [method nonneg_delta wraps_change] in *.
  - (* Inc *)
    eexists _, _. split; [reflexivity|].
    assert (Hr : 0 <= add64 (change c) 1 < 2 ^ 64) by (apply Z.mod_pos_bound; lia).
    assert (Hs' : steady {| valBits := valBits c; change := add64 (change c) 1;
                            exemplar := exemplar c |}) by (split; assumption).
    split; [exact Hs'|]. intros Hw. apply Z.leb_gt in Hw.
    apply steady_value_le; auto; cbn [valBits change write_reg read_reg]; [lia|].
    unfold add64. rewrite Z.mod_small by lia. lia.
  - (* Add *)
    rewrite fleb_fzero in Ho.
    rewrite run_Add_nonneg by (apply fltb_fzero_nonneg; exact Ho).
    rewrite run_Add_loop. cbv zeta.
    set (base := Float64frombits (valBits c)) in *.
    set (u := uint64_of_float64 v).
    pose proof (uint64_of_float64_range v) as Hu. fold u in Hu.
    assert (Hr : 0 <= add64 (change c) u < 2 ^ 64) by (apply Z.mod_pos_bound; lia).
    destruct (float64_of_uint64_val _ Hr) as [Hwn Hwv].
    set (w := float64_of_uint64 (add64 (change c) u)) in *.
    destruct (feqb v fzero) eqn:Ez.
    + (* the addend is zero: nothing changes *)
      assert (Hc0 : addWithRoundingErrorChecking base v = (base, false))
        by (unfold addWithRoundingErrorChecking; rewrite Ez; reflexivity).
      rewrite Hc0. cbn [snd fst Float64bits base]. rewrite write_valBits_same.
      eexists _, _. split; [reflexivity|]. split; [exact Hs|].
      intros _. apply steady_value_le; auto; lia.
    + destruct (feqb (fadd base v) base) eqn:Es.
      * (* the sum is lost in the rounding *)
        assert (Hc0 : addWithRoundingErrorChecking base v = (fadd base v, true))
          by (unfold addWithRoundingErrorChecking; rewrite Ez, Es; reflexivity).
        rewrite Hc0. cbn [snd fst andb].
        destruct (feqb w fzero) eqn:Ewz.
        -- (* [change + u] is zero: [valBits] is rewritten as it is *)
           assert (Hc1 : addWithRoundingErrorChecking base w = (base, false))
             by (unfold addWithRoundingErrorChecking; rewrite Ewz; reflexivity).
           rewrite Hc1. cbn [snd fst Float64bits base].
           eexists _, _. split; [reflexivity|].
           assert (Hs' : steady (write_reg reg_change 0
                                   (write_reg reg_valBits (valBits c) c)))
             by (split; cbn [valBits change write_reg read_reg]; [exact Hb | lia]).
           split; [exact Hs'|]. intros Hw. apply Z.leb_gt in Hw.
           pose proof (float64_of_uint64_zero _ Hr Ewz) as E0.
           unfold add64 in E0. rewrite Z.mod_small in E0 by lia.
           apply steady_value_le; auto; cbn [valBits change write_reg read_reg]; lia.
        -- destruct (feqb (fadd base w) base) eqn:Ews.
           ++ (* banked in [change] *)
              assert (Hc1 : addWithRoundingErrorChecking base w = (fadd base w, true))
                by (unfold addWithRoundingErrorChecking; rewrite Ewz, Ews; reflexivity).
              rewrite Hc1. cbn [snd fst].
              eexists _, _. split; [reflexivity|].
              assert (Hs' : steady (write_reg reg_change (add64 (change c) u) c))
                by (split; cbn [valBits change write_reg read_reg]; assumption).
              split; [exact Hs'|]. intros Hw. apply Z.leb_gt in Hw.
              apply steady_value_le; auto; cbn [valBits change write_reg read_reg]; [lia|].
              unfold add64. rewrite Z.mod_small by lia. lia.
           ++ (* folded into [valBits] *)
              assert (Hc1 : addWithRoundingErrorChecking base w = (fadd base w, false))
                by (unfold addWithRoundingErrorChecking; rewrite Ewz, Ews; reflexivity).
              rewrite Hc1. cbn [snd fst].
              eexists _, _. split; [reflexivity|].
              destruct (fadd_nonneg base w Hb Hwn) as [Hfn Hfv].
              assert (Hs' : steady (write_reg reg_change 0
                              (write_reg reg_valBits (Float64bits (fadd base w)) c))).
              { split; cbn [valBits change write_reg read_reg]; [|lia].
                rewrite Float64frombits_bits. exact Hfn. }
              split; [exact Hs'|]. intros Hw. apply Z.leb_gt in Hw.
              destruct (value_of_steady c Hs) as [N V].
              destruct (value_of_steady _ Hs') as [N' V'].
              rewrite fleb_val, V, V' by assumption. apply Z.leb_le.
              cbn [valBits change write_reg read_reg]. rewrite Float64frombits_bits.
              change (rne (0 * unit_scale)) with 0. rewrite Z.add_0_r.
              destruct (val_fixed _ Hfn) as [-> Hfb].
              rewrite (Z.min_l (val (fadd base w)) TOP) by lia.
              rewrite Hfv, Hwv. fold base.
              destruct (val_fixed _ Hb) as [_ Hbb].
              apply rounded_sum_mono; [lia|].
              unfold add64. rewrite Z.mod_small by lia. lia.
      * (* the sum registers: it is committed *)
        assert (Hc0 : addWithRoundingErrorChecking base v = (fadd base v, false))
          by (unfold addWithRoundingErrorChecking; rewrite Ez, Es; reflexivity).
        rewrite Hc0. cbn [snd fst andb].
        eexists _, _. split; [reflexivity|].
        destruct (fadd_nonneg base v Hb Ho) as [Hfn Hfv].
        assert (Hs' : steady (write_reg reg_valBits (Float64bits (fadd base v)) c)).
        { split; cbn [valBits change write_reg read_reg]; [|lia].
          rewrite Float64frombits_bits. exact Hfn. }
        split; [exact Hs'|]. intros _.
        apply steady_value_le; auto; cbn [valBits change write_reg read_reg]; [|lia].
        rewrite Float64frombits_bits. apply fadd_nonneg_ge; assumption.
Qed.

Lemma after_returned {A : Type} (p : prog A) (c c' : counter)
    (tr : list event) (a : A) :
  run p c = (tr, Returned a c') -> after p c = c'.
Proof. intros H. unfold after. rewrite H. reflexivity. Qed.

Lemma after_all_steady (fuel : nat) (ops : list operation) (c : counter) :
  steady c -> Forall nonneg_delta ops -> steady (after_all (S fuel) ops c).
Proof.
  revert c. induction ops as [|o ops IH]; intros c Hs Hf; [exact Hs|].
  inversion Hf as [|? ? Ho Hf']; subst. cbn [after_all].
  destruct (call_on_steady fuel o c Hs Ho) as (tr & c' & Hr & Hs' & _).
  rewrite (after_returned _ _ _ _ _ Hr). apply IH; assumption.
Qed.

(** C5, as the code has it.  On a counter whose [valBits] holds a float
    that is zero or more (the counter of [NewCounter] is one), along any
    sequence of [Inc] and of [Add] with values that are zero or more,
    each call returns, and what [get] returns after a call is not below
    what it returns before it, provided the call does not add to
    [change] past [2^64 - 1]. *)
Theorem get_does_not_go_down_without_wrap
    (fuel : nat) (c0 : counter) (prefix : list operation) (o : operation) :
  steady c0 ->
  Forall nonneg_delta (prefix ++ [o]) ->
  wraps_change o (after_all (S fuel) prefix c0) = false ->
  exists tr c',
    run (method (S fuel) o) (after_all (S fuel) prefix c0)
      = (tr, Returned tt c') /\
    fleb (value_of (after_all (S fuel) prefix c0)) (value_of c') = true.
Proof.
  intros Hs Hf Hw. apply Forall_app in Hf as [Hp Ho].
  inversion Ho as [|? ? Ho' _]; subst.
  pose proof (after_all_steady fuel prefix c0 Hs Hp) as Hs'.
  destruct (call_on_steady fuel o _ Hs' Ho') as (tr & c' & Hr & _ & Hm).
  exists tr, c'. split; [exact Hr | exact (Hm Hw)].
Qed.

(** C10, as the code has it.  [Inc] is one atomic addition of 1 to
    [change], modulo [2^64]; it does not touch [valBits] and returns.
    When [change] holds [2^64 - 1] it wraps to 0; on a counter whose
    [valBits] holds a float that is zero or more, what [get] returns then
    does not go up: it goes from the base plus [2^64] to the base, which
    is a decrease exactly when adding [2^64] to the base changes it. *)
Theorem Inc_adds_one_modulo (c : counter) :
  run Inc c =
    ([Did (AddUint64 reg_change 1)],
     Returned tt {| valBits := valBits c; change := add64 (change c) 1;
                    exemplar := exemplar c |}) /\
  (change c = 2 ^ 64 - 1 ->
   nonneg64 (Float64frombits (valBits c)) = true ->
   change (after Inc c) = 0 /\
   fleb (value_of (after Inc c)) (value_of c) = true /\
   fltb (value_of (after Inc c)) (value_of c) =
   negb (feqb (fadd (Float64frombits (valBits c))
                    (float64_of_uint64 (2 ^ 64 - 1)))
              (Float64frombits (valBits c)))).
Proof.
  split; [reflexivity|]. intros Hc Hb.
  assert (Hs : steady c) by (split; [exact Hb | rewrite Hc; lia]).
  assert (Ha : after Inc c = {| valBits := valBits c; change := 0;
                                exemplar := exemplar c |}).
  { unfold after. cbn [Inc bind call run perform snd read_reg write_reg].
    rewrite Hc. reflexivity. }
  rewrite Ha. cbn [change].
  assert (Hs' : steady {| valBits := valBits c; change := 0;
                          exemplar := exemplar c |})
    by (split; cbn [valBits change]; [exact Hb | lia]).
  destruct (value_of_steady c Hs) as [N V].
  destruct (value_of_steady _ Hs') as [N' V'].
  cbn [valBits change] in V'. change (rne (0 * unit_scale)) with 0 in V'.
  rewrite Z.add_0_r in V'.
  destruct (val_fixed _ Hb) as [Fb Bb]. rewrite Fb, Z.min_l in V' by lia.
  destruct (float64_of_uint64_val (2 ^ 64 - 1) ltac:(lia)) as [Nw Vw].
  destruct (fadd_nonneg _ _ Hb Nw) as [Ns Vs].
  rewrite Hc in V. rewrite <- Vw, <- Vs in V.
  pose proof (fadd_nonneg_ge _ _ Hb Nw) as Hge.
  split; [reflexivity|].
  rewrite fleb_val, fltb_val, feqb_val, V, V' by assumption.
  split; [apply Z.leb_le; exact Hge|].
  destruct (Z.eqb_spec (val (fadd (Float64frombits (valBits c))
                                  (float64_of_uint64 (2 ^ 64 - 1))))
                       (val (Float64frombits (valBits c)))) as [Q|Q];
    cbn [negb]; [apply Z.ltb_ge; lia | apply Z.ltb_lt; lia].
Qed.

End CounterFacts.

(** ** Properties of the vector *)

Section CounterVecFacts.
Variables MetricVec Counter : Type.
Variable lookup :
  MetricVec -> list string -> (option Counter * option error) * MetricVec.

(** C7. Whatever the lookup of the embedded [MetricVec] does,
    [WithLabelValues] panics with an error exactly when
    [GetMetricWithLabelValues] returns that error; when there is no error
    both give the same counter; and both leave the vector in the same
    state. *)
Theorem WithLabelValues_panics_iff_error (v : MetricVec) (lvs : list string) :
  (forall e,
     fst (WithLabelValues MetricVec Counter lookup v lvs) = inr e <->
     snd (fst (GetMetricWithLabelValues MetricVec Counter lookup v lvs)) = Some e) /\
  (snd (fst (GetMetricWithLabelValues MetricVec Counter lookup v lvs)) = None ->
   fst (WithLabelValues MetricVec Counter lookup v lvs) =
   inl (fst (fst (GetMetricWithLabelValues MetricVec Counter lookup v lvs)))) /\
  snd (WithLabelValues MetricVec Counter lookup v lvs) =
  snd (GetMetricWithLabelValues MetricVec Counter lookup v lvs).
Proof.
  unfold WithLabelValues.
  destruct (GetMetricWithLabelValues MetricVec Counter lookup v lvs)
    as [[c [e|]] v']; cbn [fst snd].
  - split; [|split]; [|discriminate|reflexivity].
    intros e'. split; intros H; inversion H; reflexivity.
  - split; [|split]; [|reflexivity|reflexivity].
    intros e'. split; discriminate.
Qed.

End CounterVecFacts.


(** ** More properties of the counter *)

Section CounterMore.
Context {P : Platform} {E : Externals}.

(** A call followed by another: the second one runs on the counter that
    the first one leaves, unless the first one panics or is still
    retrying. *)
Lemma run_bind {A B : Type} (p : prog A) (f : A -> prog B) (c : counter) :
  run (bind p f) c =
  match run p c with
  | (tr, Returned a c') => let (tr', o) := run (f a) c' in (tr ++ tr', o)
  | (tr, Panicked e c') => (tr, Panicked e c')
  | (tr, Retrying c') => (tr, Retrying c')
  end.
Proof.
  revert c. induction p as [a|e| |T a k IH]; intros c; cbn [bind run].
  - destruct (run (f a) c); reflexivity.
  - reflexivity.
  - reflexivity.
  - destruct (perform a c) as [b c1]. rewrite IH.
    destruct (run (k b) c1) as [tr [x c2|e c2|c2]]; try reflexivity.
    destruct (run (f x) c2); reflexivity.
Qed.

(** One turn of the loop is enough without other goroutines, and the
    exemplar slot is not touched. *)
Lemma run_Add_returns (fuel : nat) (v : float64) (c : counter) :
  fltb v fzero = false ->
  exists tr c',
    run (Add (S fuel) v) c = (tr, Returned tt c') /\
    exemplar c' = exemplar c /\ (List.length tr <= 4)%nat.
Proof.
  intros H. rewrite run_Add_nonneg by exact H. rewrite run_Add_loop. cbv zeta.
  destruct (snd (addWithRoundingErrorChecking _ v));
    [destruct (snd (addWithRoundingErrorChecking _ _))|];
    eexists _, _; (split; [reflexivity|]); split;
    try (destruct c; reflexivity); cbn [List.length]; lia.
Qed.

(** X1. Without other goroutines [Add] never retries: any unrolling of
    the loop gives the run of the first turn, which has at most four
    atomic actions and leaves the exemplar slot as it was. *)
Theorem Add_ends_in_first_turn (fuel : nat) (v : float64) (c : counter) :
  run (Add (S fuel) v) c = run (Add 1 v) c /\
  (List.length (fst (run (Add 1 v) c)) <= 4)%nat /\
  exemplar (after (Add 1 v) c) = exemplar c.
Proof.
  destruct (fltb v fzero) eqn:Hv.
  - unfold after, Add. rewrite Hv. cbn. repeat split; lia.
  - split.
    + rewrite !run_Add_nonneg by exact Hv. rewrite !run_Add_loop. reflexivity.
    + destruct (run_Add_returns 0 v c Hv) as (tr & c' & Hr & He & Hl).
      unfold after. rewrite Hr. cbn [fst snd]. split; assumption.
Qed.

(** X2. With [nil] labels [AddWithExemplar] is [Add]: the same actions,
    the same end, the exemplar left in place. *)
Theorem AddWithExemplar_nil_is_Add
    (i : counter_info) (fuel : nat) (v : float64) (c : counter) :
  run (AddWithExemplar i fuel v None) c = run (Add fuel v) c.
Proof.
  unfold AddWithExemplar. rewrite run_bind. cbn [updateExemplar run].
  destruct (run (Add fuel v) c) as [tr [[] c'|e c'|c']]; try reflexivity.
  rewrite app_nil_r. reflexivity.
Qed.

(** X3. When [newExemplar] rejects the labels, [AddWithExemplar] of a
    value that is not below zero panics with that error after [Add] has
    taken effect: the registers are those that [Add] leaves, the exemplar
    slot is as it was. *)
Theorem AddWithExemplar_panics_after_Add
    (i : counter_info) (fuel : nat) (v : float64)
    (ls : list (string * string)) (err : error) (c : counter) :
  fltb v fzero = false ->
  newExemplar v (now i tt) ls = inr err ->
  exists tr c',
    run (Add (S fuel) v) c = (tr, Returned tt c') /\
    run (AddWithExemplar i (S fuel) v (Some ls)) c = (tr, Panicked err c') /\
    exemplar c' = exemplar c.
Proof.
  intros Hv Hx. destruct (run_Add_returns fuel v c Hv) as (tr & c' & Hr & He & _).
  exists tr, c'. split; [exact Hr|]. split; [|exact He].
  unfold AddWithExemplar. rewrite run_bind, Hr. cbn [updateExemplar].
  rewrite Hx. cbn [run]. rewrite app_nil_r. reflexivity.
Qed.

Lemma run_AddWithExemplar_accepted
    (i : counter_info) (fuel : nat) (v : float64)
    (ls : list (string * string)) (e : Exemplar Time) (c : counter) :
  fltb v fzero = false ->
  newExemplar v (now i tt) ls = inl e ->
  exists tr c',
    run (Add (S fuel) v) c = (tr, Returned tt c') /\
    run (AddWithExemplar i (S fuel) v (Some ls)) c =
      (tr ++ [Did (ExemplarStore e)],
       Returned tt {| valBits := valBits c'; change := change c';
                      exemplar := Some e |}).
Proof.
  intros Hv Hx. destruct (run_Add_returns fuel v c Hv) as (tr & c' & Hr & _).
  exists tr, c'. split; [exact Hr|].
  unfold AddWithExemplar. rewrite run_bind, Hr. cbn [updateExemplar].
  rewrite Hx. reflexivity.
Qed.

(** X4. When [newExemplar] accepts the labels, [AddWithExemplar] of a
    value that is not below zero returns; it performs the actions of
    [Add] and then one store of the new exemplar, which replaces the one
    in the slot, and the registers are those that [Add] leaves. *)
Theorem AddWithExemplar_stores_exemplar
    (i : counter_info) (fuel : nat) (v : float64)
    (ls : list (string * string)) (e : Exemplar Time) (c : counter) :
  fltb v fzero = false ->
  newExemplar v (now i tt) ls = inl e ->
  exists tr c',
    run (Add (S fuel) v) c = (tr, Returned tt c') /\
    run (AddWithExemplar i (S fuel) v (Some ls)) c =
      (tr ++ [Did (ExemplarStore e)],
       Returned tt {| valBits := valBits c'; change := change c';
                      exemplar := Some e |}).
Proof.
  intros Hv Hx. destruct (run_Add_returns fuel v c Hv) as (tr & c' & Hr & _).
  exists tr, c'. split; [exact Hr|].
  unfold AddWithExemplar. rewrite run_bind, Hr. cbn [updateExemplar].
  rewrite Hx. reflexivity.
Qed.

Lemma after_Inc (c : counter) :
  after Inc c =
  {| valBits := valBits c; change := add64 (change c) 1;
     exemplar := exemplar c |}.
Proof. reflexivity. Qed.

Lemma after_repeat_Inc (fuel n : nat) (c : counter) :
  0 <= change c < 2 ^ 64 ->
  after_all fuel (repeat OpInc n) c =
  {| valBits := valBits c;
     change := (change c + Z.of_nat n) mod 2 ^ 64;
     exemplar := exemplar c |}.
Proof.
  revert c. induction n as [|n IH]; intros c Hc.
  - cbn [repeat after_all]. rewrite Z.add_0_r, Z.mod_small by lia.
    destruct c; reflexivity.
  - cbn [repeat after_all method]. rewrite after_Inc.
    rewrite IH by (cbn [change]; apply Z.mod_pos_bound; lia).
    cbn [valBits change exemplar]. f_equal.
    unfold add64. rewrite Zplus_mod_idemp_l. f_equal. lia.
Qed.

(** X5. [n] calls of [Inc] add [n] to [change] modulo [2^64] and leave
    [valBits] and the exemplar slot as they were. *)
Theorem Inc_repeated (fuel n : nat) (c : counter) :
  0 <= change c < 2 ^ 64 ->
  after_all fuel (repeat OpInc n) c =
  {| valBits := valBits c;
     change := (change c + Z.of_nat n) mod 2 ^ 64;
     exemplar := exemplar c |}.
Proof.
  revert c. induction n as [|n IH]; intros c Hc.
  - cbn [repeat after_all]. rewrite Z.add_0_r, Z.mod_small by lia.
    destruct c; reflexivity.
  - cbn [repeat after_all method]. rewrite after_Inc.
    rewrite IH by (cbn [change]; apply Z.mod_pos_bound; lia).
    cbn [valBits change exemplar]. f_equal.
    unfold add64. rewrite Zplus_mod_idemp_l. f_equal. lia.
Qed.

Lemma fresh_steady (c : counter) :
  valBits c = 0 -> change c = 0 ->
  steady c /\ val (Float64frombits (valBits c)) = 0.
Proof.
  intros Hb Hc. unfold steady. rewrite Hb, Hc. repeat split; lia.
Qed.

Lemma feqb_same (x : float64) : nonneg64 x = true -> feqb x x = true.
Proof. intros H. rewrite feqb_val by exact H. apply Z.eqb_refl. Qed.

Lemma unit_scale_pos : 0 < unit_scale.
Proof. reflexivity. Qed.

Lemma rne_small (n : Z) :
  0 <= n < 2 ^ 53 -> rne (n * unit_scale) = n * unit_scale.
Proof.
  intros Hn. unfold unit_scale. apply rne_exact; [lia | | lia].
  destruct n as [|p|p]; [simpl; lia | | lia].
  apply digits2_pos_le. lia.
Qed.

(** X6. After [n] calls of [Inc] on a counter with both registers at 0,
    as [NewCounter] returns it, [get] returns [float64(n)], for every
    [n] below [2^64]; below [2^53] this is [n] exactly. *)
Theorem get_after_Inc_repeated (fuel n : nat) (c : counter) :
  valBits c = 0 -> change c = 0 -> Z.of_nat n < 2 ^ 64 ->
  feqb (value_of (after_all fuel (repeat OpInc n) c))
       (float64_of_uint64 (Z.of_nat n)) = true /\
  (Z.of_nat n < 2 ^ 53 ->
   val (value_of (after_all fuel (repeat OpInc n) c)) = Z.of_nat n * unit_scale).
Proof.
  intros Hb Hc Hn. destruct (fresh_steady c Hb Hc) as [Hs Hv0].
  rewrite after_repeat_Inc by (rewrite Hc; lia).
  rewrite Hc, Z.add_0_l, Z.mod_small by lia.
  set (c' := {| valBits := valBits c; change := Z.of_nat n;
                exemplar := exemplar c |}).
  assert (Hs' : steady c') by (split; [apply Hs | cbn [change c']; lia]).
  destruct (value_of_steady c' Hs') as [N V].
  cbn [valBits change c'] in V. rewrite Hv0, Z.add_0_l in V.
  destruct (float64_of_uint64_val (Z.of_nat n) ltac:(lia)) as [Nn Vn].
  destruct (val_fixed _ Nn) as [Fn Bn]. rewrite <- Vn, Fn, Z.min_l in V by lia.
  split.
  - rewrite feqb_val by assumption. apply Z.eqb_eq. exact V.
  - intros Hsmall. rewrite V, Vn. apply rne_small. lia.
Qed.

(** X7. The first [Add] on a counter with both registers at 0 stores the
    value: [get] then returns a float equal to [v], for every [v] that is
    zero or more. *)
Theorem get_after_first_Add (fuel : nat) (v : float64) (c : counter) :
  valBits c = 0 -> change c = 0 -> fleb fzero v = true ->
  feqb (value_of (after (Add (S fuel) v) c)) v = true.
Proof.
  intros Hb Hc Hv. rewrite fleb_fzero in Hv.
  destruct (fresh_steady c Hb Hc) as [Hs Hv0]. pose proof Hs as [Hbn _].
  destruct (val_fixed v Hv) as [Fv Bv].
  destruct (fadd_nonneg _ _ Hbn Hv) as [Nf Vf].
  rewrite Hv0, Z.add_0_l, Fv, Z.min_l in Vf by lia.
  unfold after. rewrite run_Add_nonneg by (apply fltb_fzero_nonneg; exact Hv).
  rewrite run_Add_loop. cbv zeta.
  set (base := Float64frombits (valBits c)) in *.
  destruct (feqb v fzero) eqn:Ez.
  - assert (Hc0 : addWithRoundingErrorChecking base v = (base, false))
      by (unfold addWithRoundingErrorChecking; rewrite Ez; reflexivity).
    rewrite Hc0. cbn [snd fst Float64bits base]. rewrite write_valBits_same.
    destruct (value_of_steady c Hs) as [N V].
    fold base in V. rewrite Hv0, Hc in V. change (rne (0 + rne (0 * unit_scale))) with 0 in V.
    destruct (feqb_fzero_nonneg v Ez) as [_ V0].
    rewrite feqb_val by assumption. apply Z.eqb_eq. rewrite V, V0. reflexivity.
  - assert (Es : feqb (fadd base v) base = false).
    { rewrite feqb_val by assumption. rewrite Vf, Hv0.
      rewrite feqb_val in Ez by (auto; reflexivity). exact Ez. }
    assert (Hc0 : addWithRoundingErrorChecking base v = (fadd base v, false))
      by (unfold addWithRoundingErrorChecking; rewrite Ez, Es; reflexivity).
    rewrite Hc0. cbn [snd fst].
    set (c' := write_reg reg_valBits (Float64bits (fadd base v)) c).
    assert (Hs' : steady c').
    { split; cbn [valBits change write_reg c']; [|apply Hs].
      rewrite Float64frombits_bits. exact Nf. }
    destruct (value_of_steady _ Hs') as [N V].
    rewrite feqb_val by assumption. apply Z.eqb_eq. rewrite V.
    cbn [valBits change write_reg c']. rewrite Float64frombits_bits, Hc, Vf.
    change (rne (0 * unit_scale)) with 0. rewrite Z.add_0_r, Fv.
    apply Z.min_l. lia.
Qed.

(** X8. Along any sequence of [Inc] and of [Add] with values that are
    zero or more, started on a counter whose [valBits] holds a float that
    is zero or more, [change] stays a [uint64], [valBits] keeps holding
    such a float, and what [get] returns is not NaN and not below
    zero, also across the wraps of [change]. *)
Theorem get_never_NaN_or_negative
    (fuel : nat) (ops : list operation) (c0 : counter) :
  steady c0 -> Forall nonneg_delta ops ->
  steady (after_all (S fuel) ops c0) /\
  fleb fzero (value_of (after_all (S fuel) ops c0)) = true.
Proof.
  intros Hs Hf. pose proof (after_all_steady fuel ops c0 Hs Hf) as Hs'.
  split; [exact Hs'|]. rewrite fleb_fzero. apply value_of_steady. exact Hs'.
Qed.

(** X9. On the path of the rounding loss nothing of [change + u] is
    dropped at that call: whether the sum is banked in [change] or folded
    into [valBits], [get] afterwards returns a float equal to the base
    plus the float of [change + u]. *)
Theorem get_after_rounding_loss (fuel : nat) (v : float64) (c : counter) :
  steady c -> fleb fzero v = true ->
  snd (addWithRoundingErrorChecking (Float64frombits (valBits c)) v) = true ->
  feqb (value_of (after (Add (S fuel) v) c))
       (fadd (Float64frombits (valBits c))
             (float64_of_uint64 (add64 (change c) (uint64_of_float64 v))))
  = true.
Proof.
  intros Hs Hv Hloss. rewrite fleb_fzero in Hv. pose proof Hs as [Hb Hc].
  unfold after. rewrite run_Add_nonneg by (apply fltb_fzero_nonneg; exact Hv).
  rewrite run_Add_loop. cbv zeta. rewrite Hloss.
  set (base := Float64frombits (valBits c)) in *.
  set (n := add64 (change c) (uint64_of_float64 v)).
  assert (Hr : 0 <= n < 2 ^ 64) by (apply Z.mod_pos_bound; lia).
  destruct (float64_of_uint64_val _ Hr) as [Hwn Hwv].
  destruct (fadd_nonneg base _ Hb Hwn) as [Hfn Hfv].
  destruct (feqb (float64_of_uint64 n) fzero) eqn:Ewz.
  - assert (Hc1 : addWithRoundingErrorChecking base (float64_of_uint64 n) = (base, false))
      by (unfold addWithRoundingErrorChecking; rewrite Ewz; reflexivity).
    rewrite Hc1. cbn [snd fst Float64bits base].
    rewrite value_of_eq. cbn [valBits change write_reg]. fold base.
    rewrite <- (float64_of_uint64_zero _ Hr Ewz). apply feqb_same. exact Hfn.
  - destruct (feqb (fadd base (float64_of_uint64 n)) base) eqn:Ews.
    + assert (Hc1 : addWithRoundingErrorChecking base (float64_of_uint64 n)
                    = (fadd base (float64_of_uint64 n), true))
        by (unfold addWithRoundingErrorChecking; rewrite Ewz, Ews; reflexivity).
      rewrite Hc1. cbn [snd fst].
      rewrite value_of_eq. cbn [valBits change write_reg]. fold base.
      apply feqb_same. exact Hfn.
    + assert (Hc1 : addWithRoundingErrorChecking base (float64_of_uint64 n)
                    = (fadd base (float64_of_uint64 n), false))
        by (unfold addWithRoundingErrorChecking; rewrite Ewz, Ews; reflexivity).
      rewrite Hc1. cbn [snd fst].
      set (c' := write_reg reg_change 0
                   (write_reg reg_valBits
                      (Float64bits (fadd base (float64_of_uint64 n))) c)).
      assert (Hs' : steady c').
      { split; cbn [valBits change write_reg c']; [|lia].
        rewrite Float64frombits_bits. exact Hfn. }
      destruct (value_of_steady _ Hs') as [N V].
      cbn [valBits change write_reg c'] in V.
      rewrite Float64frombits_bits in V.
      change (rne (0 * unit_scale)) with 0 in V. rewrite Z.add_0_r in V.
      destruct (val_fixed _ Hfn) as [Ff Bf]. rewrite Ff, Z.min_l in V by lia.
      rewrite feqb_val by assumption. apply Z.eqb_eq. exact V.
Qed.

(** X10. An [Add] that is committed directly, with a value above zero,
    makes the float of [valBits] strictly greater. *)
Theorem Add_direct_commit_increases (fuel : nat) (v : float64) (c : counter) :
  steady c -> fleb fzero v = true -> feqb v fzero = false ->
  snd (addWithRoundingErrorChecking (Float64frombits (valBits c)) v) = false ->
  fltb (Float64frombits (valBits c))
       (Float64frombits (valBits (after (Add (S fuel) v) c))) = true /\
  change (after (Add (S fuel) v) c) = change c.
Proof.
  intros Hs Hv Ez Hno. rewrite fleb_fzero in Hv. pose proof Hs as [Hb Hc].
  unfold after. rewrite run_Add_nonneg by (apply fltb_fzero_nonneg; exact Hv).
  rewrite run_Add_loop. cbv zeta. rewrite Hno.
  set (base := Float64frombits (valBits c)) in *.
  assert (Es : feqb (fadd base v) base = false)
    by (unfold addWithRoundingErrorChecking in Hno; rewrite Ez in Hno; exact Hno).
  assert (Hc0 : addWithRoundingErrorChecking base v = (fadd base v, false))
    by (unfold addWithRoundingErrorChecking; rewrite Ez, Es; reflexivity).
  rewrite Hc0. cbn [snd fst valBits change write_reg].
  split; [|reflexivity]. rewrite Float64frombits_bits.
  destruct (fadd_nonneg base v Hb Hv) as [Hfn _].
  pose proof (fadd_nonneg_ge base v Hb Hv) as Hge.
  rewrite feqb_val in Es by assumption. apply Z.eqb_neq in Es.
  rewrite fltb_val by assumption. apply Z.ltb_lt. lia.
Qed.

Lemma rne_double (x : spec_float) :
  valid_binary prec emax x = true -> is_nonneg x = true -> ord x < TOP ->
  rne (2 * ord x) = 2 * ord x.
Proof.
  intros V N H. destruct x as [s|[|]| |[|] m e]; try discriminate; cbn [ord] in *.
  - reflexivity.
  - apply valid_finite in V as (He & Hd & _).
    replace (2 * (Zpos m * 2 ^ (e + 1074))) with (Zpos m * 2 ^ (1 + (e + 1074))).
    + apply rne_exact; [lia | exact Hd | lia].
    + rewrite (pow2_split 1) by lia. change (2 ^ 1) with 2. lia.
Qed.

(** X11. The rounding check reports a loss only for an addend above zero
    that is smaller than the base, unless the base is [+Inf]; in
    particular never on a base of zero. *)
Theorem rounding_loss_needs_greater_base (base v : float64) :
  nonneg64 base = true -> nonneg64 v = true ->
  snd (addWithRoundingErrorChecking base v) = true ->
  0 < val v /\ (val base < TOP -> val v < val base).
Proof.
  intros Hb Hv Hloss.
  destruct (rounding_check_base_not_nan _ _ Hloss) as (Ez & Es & _).
  destruct (val_fixed v Hv) as [Fv Bv]. destruct (val_fixed base Hb) as [Fb Bb].
  destruct (fadd_nonneg base v Hb Hv) as [Nf Vf].
  rewrite feqb_val in Ez by (auto; reflexivity).
  change (val fzero) with 0 in Ez. apply Z.eqb_neq in Ez.
  rewrite feqb_val in Es by assumption. apply Z.eqb_eq in Es.
  split; [lia|]. intros Hfin.
  destruct (Z.lt_ge_cases (val v) (val base)) as [|Hge]; [assumption|exfalso].
  pose proof (rne_double (SF_of base) (SF_of_valid base) Hb Hfin) as Hd.
  fold (val base) in Hd.
  pose proof (rne_mono (2 * val base) (val base + val v) ltac:(lia) ltac:(lia)) as Hm.
  rewrite Hd in Hm. rewrite Vf in Es.
  assert (val base = 0) by lia.
  rewrite H, Z.add_0_l, Fv in Es. lia.
Qed.

(** X12. [float64(uint64(v))] is never above a [v] that is zero or more
    and below [2^64], and is equal to [v] when [v] is an integer. *)
Theorem uint64_round_trip (v : float64) :
  nonneg64 v = true -> val v < 2 ^ 64 * unit_scale ->
  fleb (float64_of_uint64 (uint64_of_float64 v)) v = true /\
  (val v mod unit_scale = 0 ->
   feqb (float64_of_uint64 (uint64_of_float64 v)) v = true).
Proof.
  intros Hv Hlt.
  pose proof (uint64_of_float64_range v) as Hr.
  pose proof (uint64_of_float64_integer_part v Hv Hlt) as Hi.
  destruct (float64_of_uint64_val _ Hr) as [Nu Vu].
  destruct (val_fixed v Hv) as [Fv Bv].
  pose proof unit_scale_pos as HU.
  set (u := uint64_of_float64 v) in *.
  assert (Hle : rne (u * unit_scale) <= val v).
  { rewrite <- Fv. apply rne_mono; [apply Z.mul_nonneg_nonneg|]; lia. }
  split.
  - rewrite fleb_val, Vu by assumption. apply Z.leb_le. exact Hle.
  - intros Hint. rewrite feqb_val, Vu by assumption. apply Z.eqb_eq.
    apply Z.mod_divide in Hint; [|lia]. destruct Hint as [q Hq].
    assert (q = u) by nia. subst q. rewrite <- Hq. exact Fv.
Qed.

(** *** One interference *)

Lemma run_among_quiet {A : Type} (others : nat -> counter -> counter)
    (p : prog A) :
  forall (n : nat) (c : counter),
    (forall k c0, (n <= k)%nat -> others k c0 = c0) ->
    snd (run_among others n p c) = snd (run p c).
Proof.
  induction p as [a|e| |T a k IH]; intros n c Hq; cbn [run_among run];
    try reflexivity.
  rewrite (Hq n c) by lia. destruct (perform a c) as [b c1].
  specialize (IH b (S n) c1 ltac:(intros; apply Hq; lia)).
  destruct (run_among others (S n) (k b) c1), (run (k b) c1). exact IH.
Qed.

Lemma only_at_other (k n : nat) (g : counter -> counter) (c : counter) :
  n <> k -> only_at k g n c = c.
Proof.
  intros H. unfold only_at. rewrite (proj2 (Nat.eqb_neq n k) H). reflexivity.
Qed.

Lemma only_at_same (k : nat) (g : counter -> counter) (c : counter) :
  only_at k g k c = g c.
Proof. unfold only_at. rewrite Nat.eqb_refl. reflexivity. Qed.

Lemma Add_loop_S (fuel : nat) (v : float64) :
  Add_loop (S fuel) v =
  bind (call (LoadUint64 reg_valBits)) (fun oldBits =>
  let (newF, hasRoundingErr) :=
    addWithRoundingErrorChecking (Float64frombits oldBits) v in
  if hasRoundingErr then
    let u := uint64_of_float64 v in
    bind (call (LoadUint64 reg_change)) (fun oldChange =>
    let (newF, isChangeSmall) :=
      addWithRoundingErrorChecking (Float64frombits oldBits)
        (float64_of_uint64 (add64 oldChange u)) in
    if isChangeSmall then
      bind (call (CompareAndSwapUint64 reg_change oldChange
                    (add64 oldChange u)))
           (fun swapped => if swapped then Ret tt else Add_loop fuel v)
    else
      let newBits := Float64bits newF in
      bind (call (CompareAndSwapUint64 reg_valBits oldBits newBits))
           (fun swapped =>
              if swapped then call (StoreUint64 reg_change 0)
              else Add_loop fuel v))
  else
    let newBits := Float64bits newF in
    bind (call (CompareAndSwapUint64 reg_valBits oldBits newBits))
         (fun swapped => if swapped then Ret tt else Add_loop fuel v)).
Proof. reflexivity. Qed.

(** X13. A direct [Add] does not overwrite a [valBits] that another
    goroutine has changed between the load and the compare-and-swap: the
    swap fails, nothing is written, and [Add] starts over on the counter
    as the other goroutine left it.  When [valBits] is as loaded the swap
    is made on that counter, and what the other goroutine did to [change]
    and to the exemplar slot is kept. *)
Theorem Add_direct_among_one_writer
    (fuel n : nat) (v : float64) (g : counter -> counter) (c : counter) :
  fltb v fzero = false ->
  snd (addWithRoundingErrorChecking (Float64frombits (valBits c)) v) = false ->
  snd (run_among (only_at (S n) g) n (Add (S (S fuel)) v) c) =
  if valBits (g c) =? valBits c then
    Returned tt
      (write_reg reg_valBits
         (Float64bits
            (fst (addWithRoundingErrorChecking
                    (Float64frombits (valBits c)) v)))
         (g c))
  else snd (run (Add (S fuel) v) (g c)).
Proof.
  intros Hv Hno. unfold Add. rewrite Hv. rewrite (Add_loop_S (S fuel)).
  cbn [bind call run_among]. rewrite only_at_other by lia.
  cbn [perform read_reg].
  destruct (addWithRoundingErrorChecking (Float64frombits (valBits c)) v)
    as [newF b]. cbn [snd fst] in *. subst b.
  cbn [bind call run_among]. rewrite only_at_same. cbn [perform read_reg].
  destruct (valBits (g c) =? valBits c).
  - reflexivity.
  - cbn [bind].
    pose proof (run_among_quiet (only_at (S n) g) (Add_loop (S fuel) v)
                  (S (S n)) (g c)
                  ltac:(intros; apply only_at_other; lia)) as Hq.
    destruct (run_among (only_at (S n) g) (S (S n)) (Add_loop (S fuel) v) (g c)).
    cbn [snd] in *. exact Hq.
Qed.

(** X14. On the path that folds [change] into [valBits], whatever another
    goroutine does to the counter between the compare-and-swap of
    [valBits] and the store to [change] is kept, except for [change]: the
    store sets it to 0, so an [Inc] that lands there is lost. *)
Theorem Add_fold_overwrites_change
    (fuel n : nat) (v : float64) (g : counter -> counter) (c : counter) :
  fltb v fzero = false ->
  snd (addWithRoundingErrorChecking (Float64frombits (valBits c)) v) = true ->
  snd (addWithRoundingErrorChecking (Float64frombits (valBits c))
         (float64_of_uint64 (add64 (change c) (uint64_of_float64 v)))) = false ->
  let newBits :=
    Float64bits
      (fst (addWithRoundingErrorChecking (Float64frombits (valBits c))
              (float64_of_uint64 (add64 (change c) (uint64_of_float64 v))))) in
  snd (run_among (only_at (S (S (S n))) g) n (Add (S fuel) v) c) =
    Returned tt (write_reg reg_change 0 (g (write_reg reg_valBits newBits c))) /\
  change (write_reg reg_change 0 (g (write_reg reg_valBits newBits c))) = 0.
Proof.
  intros Hv Hloss Hfold newBits. split; [|reflexivity]. subst newBits.
  unfold Add. rewrite Hv. rewrite Add_loop_S.
  cbn [bind call run_among]. rewrite only_at_other by lia.
  cbn [perform read_reg].
  destruct (addWithRoundingErrorChecking (Float64frombits (valBits c)) v)
    as [newF b]. cbn [snd fst] in Hloss. subst b.
  cbn [bind call run_among]. rewrite only_at_other by lia.
  cbn [perform read_reg].
  destruct (addWithRoundingErrorChecking (Float64frombits (valBits c))
              (float64_of_uint64 (add64 (change c) (uint64_of_float64 v))))
    as [newF' b]. cbn [snd fst] in *. subst b.
  cbn [bind call run_among]. rewrite only_at_other by lia.
  cbn [perform read_reg]. rewrite Z.eqb_refl.
  cbn [bind call run_among]. rewrite only_at_same.
  cbn [perform snd]. reflexivity.
Qed.


(** *** Calls in sequence *)

(** X15. A [Write] that follows an [AddWithExemplar] whose labels are
    accepted exports the new exemplar together with the value that [get]
    returns after the [Add]. *)
Theorem Write_after_AddWithExemplar
    (i : counter_info) (fuel : nat) (v : float64)
    (ls : list (string * string)) (e : Exemplar Time) (out : DtoMetric)
    (c : counter) :
  fltb v fzero = false ->
  newExemplar v (now i tt) ls = inl e ->
  snd (run (Write i out) (after (AddWithExemplar i (S fuel) v (Some ls)) c)) =
  Returned
    (populateMetric CounterValue (value_of (after (Add (S fuel) v) c))
       (labelPairs i) (Some e) out (createdTs i))
    (after (AddWithExemplar i (S fuel) v (Some ls)) c).
Proof.
  intros Hv Hx.
  destruct (run_AddWithExemplar_accepted i fuel v ls e c Hv Hx)
    as (tr & c' & Ha & Hw).
  unfold after. rewrite Hw, Ha. reflexivity.
Qed.

(** X16. An [Add] that is banked leaves the counter that [uint64(v)] calls
    of [Inc] leave. *)
Theorem Add_banked_is_Inc_repeated
    (fuel fuel' : nat) (v : float64) (c : counter) :
  0 <= change c < 2 ^ 64 ->
  fltb v fzero = false ->
  snd (addWithRoundingErrorChecking (Float64frombits (valBits c)) v) = true ->
  snd (addWithRoundingErrorChecking (Float64frombits (valBits c))
         (float64_of_uint64 (add64 (change c) (uint64_of_float64 v)))) = true ->
  after (Add (S fuel) v) c =
  after_all fuel' (repeat OpInc (Z.to_nat (uint64_of_float64 v))) c.
Proof.
  intros Hc Hv Hloss Hsmall.
  rewrite after_repeat_Inc by exact Hc.
  pose proof (uint64_of_float64_range v) as Hu.
  rewrite Z2Nat.id by lia.
  unfold after. rewrite run_Add_nonneg by exact Hv.
  rewrite run_Add_loop. cbv zeta. rewrite Hloss, Hsmall. reflexivity.
Qed.
End CounterMore.

(** ** More properties of the vector *)

Section CounterVecByLabelsFacts.
Variables MetricVec Counter : Type.
Variable lookup :
  MetricVec -> Labels -> (option Counter * option error) * MetricVec.
Variable curry : MetricVec -> Labels -> option MetricVec * option error.

(** X17. [With] panics with an error exactly when [GetMetricWith] returns
    that error, also when a counter comes with the error; without an
    error both give the same counter; both leave the vector in the same
    state. *)
Theorem With_panics_iff_error (v : MetricVec) (labels : Labels) :
  (forall e,
     fst (With MetricVec Counter lookup v labels) = inr e <->
     snd (fst (GetMetricWith MetricVec Counter lookup v labels)) = Some e) /\
  (snd (fst (GetMetricWith MetricVec Counter lookup v labels)) = None ->
   fst (With MetricVec Counter lookup v labels) =
   inl (fst (fst (GetMetricWith MetricVec Counter lookup v labels)))) /\
  snd (With MetricVec Counter lookup v labels) =
  snd (GetMetricWith MetricVec Counter lookup v labels).
Proof.
  unfold With.
  destruct (GetMetricWith MetricVec Counter lookup v labels)
    as [[c [e|]] v']; cbn [fst snd].
  - split; [|split]; [|discriminate|reflexivity].
    intros e'. split; intros H; inversion H; reflexivity.
  - split; [|split]; [|reflexivity|reflexivity].
    intros e'. split; discriminate.
Qed.

(** X18. [CurryWith] returns the vector and the error of the embedded
    [MetricVec] as they are, and [MustCurryWith] panics with an error
    exactly when [CurryWith] returns that error, and gives the vector of
    [CurryWith] otherwise. *)
Theorem MustCurryWith_panics_iff_error (v : MetricVec) (labels : Labels) :
  CurryWith MetricVec curry v labels = curry v labels /\
  (forall e,
     MustCurryWith MetricVec curry v labels = inr e <->
     snd (CurryWith MetricVec curry v labels) = Some e) /\
  (snd (CurryWith MetricVec curry v labels) = None ->
   MustCurryWith MetricVec curry v labels =
   inl (fst (CurryWith MetricVec curry v labels))).
Proof.
  assert (Hc : CurryWith MetricVec curry v labels = curry v labels)
    by (unfold CurryWith; destruct (curry v labels) as [[vec|] err]; reflexivity).
  split; [exact Hc|]. unfold MustCurryWith.
  destruct (CurryWith MetricVec curry v labels) as [vec [e|]]; cbn [fst snd].
  - split; [|discriminate].
    intros e'. split; intros H; inversion H; reflexivity.
  - split; [|reflexivity]. intros e'. split; discriminate.
Qed.

End CounterVecByLabelsFacts.
(** ** The properties at concrete inputs *)

#[local] Existing Instance example_platform.
#[local] Existing Instance example_externals.

Lemma Add_rounding_loss_at_2p53 :
  exists tr c',
    run (Add 1 f_one)
        (counter_at (Float64bits (pow2_float 53)) 0)
      = (tr, Returned tt c') /\
    valBits c' = Float64bits (pow2_float 53) /\ change c' = 1.
Proof.
  destruct (@Add_rounding_loss_banks_or_folds example_platform example_externals
              0 f_one (counter_at (Float64bits (pow2_float 53)) 0)
              ltac:(reflexivity) ltac:(reflexivity))
    as (_ & tr & c' & Hr & Ha & _).
  exists tr, c'. split; [exact Hr|]. apply Ha. reflexivity.
Defined.

Lemma Add_direct_path_at_one :
  run (Add 1 f_one) (counter_at 0 0) =
  ([Did (LoadUint64 reg_valBits);
    Did (CompareAndSwapUint64 reg_valBits 0 (Float64bits f_one))],
   Returned tt (counter_at (Float64bits f_one) 0)).
Proof.
  apply (@Add_takes_rounding_path_iff example_platform example_externals
           0 f_one (counter_at 0 0) ltac:(reflexivity)).
  reflexivity.
Defined.

(** C2 as stated fails: with [v] zero the base plus [v] equals the base,
    and yet [Add] does not touch [change]. *)
Lemma Add_zero_not_on_rounding_path :
  ~ (existsb on_change
       (fst (run (Add 1 fzero) (counter_at 0 0))) = true
     <->
     feqb (fadd (Float64frombits 0) fzero)
          (Float64frombits 0) = true).
Proof.
  intros [_ H]. specialize (H ltac:(reflexivity)). discriminate H.
Qed.

Lemma Add_panics_at_minus_one_not_at_one :
  run (Add 1 f_minus_one) (counter_at 0 0)
    = ([], Panicked errCannotDecrease (counter_at 0 0)) /\
  exists tr c',
    run (Add 1 f_one) (counter_at 0 0)
      = (tr, Returned tt c').
Proof.
  split.
  - apply (@Add_panics_below_zero example_platform example_externals
             1 f_minus_one (counter_at 0 0)). reflexivity.
  - apply (@Add_panics_below_zero example_platform example_externals
             0 f_one (counter_at 0 0)). reflexivity.
Defined.

(** C5 as stated fails: after four calls from the counter of
    [NewCounter], [get] returns [2^116 + 2^64]; a further [Add] of [2^63]
    takes the rounding path, wraps [change] from [2^63 + 1025] to 1025,
    and [get] returns [2^116]. *)
Lemma get_goes_down_when_change_wraps :
  Forall nonneg_delta (wrapping_prefix ++ [OpAdd (pow2_float 63)]) /\
  fleb (value_of
          (after_all 1 wrapping_prefix (counter_at 0 0)))
       (value_of
          (after (method 1 (OpAdd (pow2_float 63)))
             (after_all 1 wrapping_prefix
                (counter_at 0 0))))
  = false.
Proof.
  split.
  - repeat (constructor; [first [exact I | reflexivity]|]). constructor.
  - vm_compute. reflexivity.
Qed.

Lemma get_does_not_go_down_at_Add_then_Inc :
  exists tr c',
    run (method 1 OpInc)
        (after_all 1 [OpAdd f_one] (counter_at 0 0))
      = (tr, Returned tt c') /\
    fleb (value_of
            (after_all 1 [OpAdd f_one] (counter_at 0 0)))
         (value_of c') = true.
Proof.
  apply (@get_does_not_go_down_without_wrap example_platform example_externals
           0 (counter_at 0 0) [OpAdd f_one] OpInc).
  - split; [reflexivity | simpl; lia].
  - repeat (constructor; [first [exact I | reflexivity]|]). constructor.
  - reflexivity.
Defined.

Lemma Add_zero_at_new_counter :
  run (Add 1 fzero) (counter_at 0 0) =
  ([Did (LoadUint64 reg_valBits);
    Did (CompareAndSwapUint64 reg_valBits 0 0)],
   Returned tt (counter_at 0 0)).
Proof.
  apply (@Add_zero_is_identity example_platform example_externals
           0 fzero (counter_at 0 0)). reflexivity.
Defined.

Lemma AddWithExemplar_at_minus_one :
  run
      (AddWithExemplar example_info 1 f_minus_one (Some []))
      (counter_at 0 0)
  = ([], Panicked errCannotDecrease (counter_at 0 0)).
Proof.
  apply (@AddWithExemplar_panics_below_zero example_platform example_externals).
  reflexivity.
Defined.

Lemma Inc_wraps_at_zero_base :
  change (after Inc (counter_at 0 (2 ^ 64 - 1))) = 0 /\
  fltb (value_of
          (after Inc (counter_at 0 (2 ^ 64 - 1))))
       (value_of (counter_at 0 (2 ^ 64 - 1))) = true.
Proof.
  destruct (@Inc_adds_one_modulo example_platform example_externals
              (counter_at 0 (2 ^ 64 - 1))) as [_ H].
  destruct (H ltac:(reflexivity) ltac:(reflexivity)) as (H0 & _ & H2).
  split; [exact H0|]. rewrite H2. reflexivity.
Defined.

(** C10 as stated fails: sixty-five calls of [Add] from the counter of
    [NewCounter] leave [2^120] in [valBits] and [2^64 - 1] in [change];
    [Inc] then wraps [change] to 0 and [get] returns [2^120] before and
    after. *)
Lemma Inc_wrap_keeps_value_at_2p120 :
  after_all 1 banking_prefix (counter_at 0 0)
    = counter_at (Float64bits (pow2_float 120)) (2 ^ 64 - 1) /\
  change (after Inc (counter_at (Float64bits (pow2_float 120)) (2 ^ 64 - 1)))
    = 0 /\
  fltb (value_of
          (after Inc (counter_at (Float64bits (pow2_float 120)) (2 ^ 64 - 1))))
       (value_of (counter_at (Float64bits (pow2_float 120)) (2 ^ 64 - 1)))
  = false.
Proof. split; [|split]; vm_compute; reflexivity. Qed.

Lemma WithLabelValues_at_wrong_length :
  fst (WithLabelValues vec_model nat vec_model_lookup example_vec
         ["404"%string]) = inr errInconsistentCardinality /\
  fst (WithLabelValues vec_model nat vec_model_lookup example_vec
         ["404"; "GET"]%string) = inl (Some 0%nat).
Proof.
  split.
  - apply (proj1 (WithLabelValues_panics_iff_error vec_model nat
                    vec_model_lookup example_vec ["404"%string])).
    reflexivity.
  - apply (proj1 (proj2 (WithLabelValues_panics_iff_error vec_model nat
                           vec_model_lookup example_vec ["404"; "GET"]%string))).
    reflexivity.
Defined.

(** *** More properties at concrete inputs *)

Lemma AddWithExemplar_rejected_at_one :
  exists tr c',
    run (E := rejecting_externals)
        (AddWithExemplar rejecting_info 1 f_one (Some []))
        (rejecting_counter_at 0 0)
      = (tr, Panicked "invalid exemplar labels"%string c') /\
    exemplar c' = None.
Proof.
  destruct (@AddWithExemplar_panics_after_Add example_platform
              rejecting_externals rejecting_info 0 f_one []
              "invalid exemplar labels"%string (rejecting_counter_at 0 0)
              ltac:(reflexivity) ltac:(reflexivity))
    as (tr & c' & _ & Hp & He).
  exists tr, c'. split; [exact Hp | exact He].
Defined.

Lemma AddWithExemplar_accepted_at_one :
  exists tr c',
    run (AddWithExemplar example_info 1 f_one (Some [])) (counter_at 0 0)
      = (tr, Returned tt c') /\
    exemplar c' =
    Some {| ex_value := f_one; ex_timestamp := 0; ex_labels := [] |}.
Proof.
  destruct (@AddWithExemplar_stores_exemplar example_platform example_externals
              example_info 0 f_one []
              {| ex_value := f_one; ex_timestamp := 0; ex_labels := [] |}
              (counter_at 0 0) ltac:(reflexivity) ltac:(reflexivity))
    as (tr & c' & _ & Hr).
  eexists _, _. split; [exact Hr | reflexivity].
Defined.

Lemma Inc_three_times :
  after_all 1 (repeat OpInc 3) (counter_at 0 0) = counter_at 0 3.
Proof.
  rewrite (@Inc_repeated example_platform example_externals 1 3 (counter_at 0 0))
    by (simpl; lia).
  reflexivity.
Defined.

Lemma get_after_three_Inc :
  val (value_of (after_all 1 (repeat OpInc 3) (counter_at 0 0)))
  = 3 * unit_scale.
Proof.
  apply (@get_after_Inc_repeated example_platform example_externals
           1 3 (counter_at 0 0)); reflexivity.
Defined.

Lemma get_after_first_Add_of_one :
  feqb (value_of (after (Add 1 f_one) (counter_at 0 0))) f_one = true.
Proof.
  apply (@get_after_first_Add example_platform example_externals
           0 f_one (counter_at 0 0)); reflexivity.
Defined.

Lemma get_not_NaN_after_wrap :
  fleb fzero
    (value_of (after_all 1 (wrapping_prefix ++ [OpAdd (pow2_float 63)])
                 (counter_at 0 0))) = true.
Proof.
  apply (@get_never_NaN_or_negative example_platform example_externals
           0 (wrapping_prefix ++ [OpAdd (pow2_float 63)]) (counter_at 0 0)).
  - split; [reflexivity | simpl; lia].
  - repeat (constructor; [first [exact I | reflexivity]|]). constructor.
Defined.

Lemma get_after_rounding_loss_at_2p53 :
  feqb (value_of (after (Add 1 f_one)
                    (counter_at (Float64bits (pow2_float 53)) 0)))
       (fadd (pow2_float 53) (float64_of_uint64 1)) = true.
Proof.
  apply (@get_after_rounding_loss example_platform example_externals
           0 f_one (counter_at (Float64bits (pow2_float 53)) 0)).
  - split; [reflexivity | simpl; lia].
  - reflexivity.
  - reflexivity.
Defined.

Lemma Add_one_increases_new_counter :
  fltb fzero
       (Float64frombits (valBits (after (Add 1 f_one) (counter_at 0 0))))
  = true.
Proof.
  apply (@Add_direct_commit_increases example_platform example_externals
           0 f_one (counter_at 0 0)).
  - split; [reflexivity | simpl; lia].
  - reflexivity.
  - reflexivity.
  - reflexivity.
Defined.

Lemma rounding_loss_at_2p53 : val f_one < val (pow2_float 53).
Proof.
  apply (@rounding_loss_needs_greater_base example_platform
           (pow2_float 53) f_one); reflexivity.
Defined.

Lemma uint64_round_trip_at_one :
  feqb (float64_of_uint64 (uint64_of_float64 f_one)) f_one = true.
Proof.
  apply (@uint64_round_trip example_platform f_one); reflexivity.
Defined.

Lemma Add_one_among_other_Add_one :
  snd (run_among (only_at 1 other_adds_one) 0 (Add 2 f_one) (counter_at 0 0))
  = snd (run (Add 1 f_one) (other_adds_one (counter_at 0 0))).
Proof.
  rewrite (@Add_direct_among_one_writer example_platform example_externals
             0 0 f_one other_adds_one (counter_at 0 0)
             ltac:(reflexivity) ltac:(reflexivity)).
  reflexivity.
Defined.

Lemma Add_fold_loses_Inc_at_2p53 :
  change
    (match snd (run_among (only_at 3 (after Inc)) 0 (Add 1 f_one)
                  (counter_at (Float64bits (pow2_float 53)) 1)) with
     | Returned _ c' | Panicked _ c' | Retrying c' => c'
     end) = 0.
Proof.
  destruct (@Add_fold_overwrites_change example_platform example_externals
              0 0 f_one (after Inc)
              (counter_at (Float64bits (pow2_float 53)) 1)
              ltac:(reflexivity) ltac:(reflexivity) ltac:(reflexivity))
    as [Hr Hc].
  rewrite Hr. exact Hc.
Defined.

Lemma Write_after_AddWithExemplar_at_one :
  exists c',
    snd (run (Write example_info tt)
           (after (AddWithExemplar example_info 1 f_one (Some []))
              (counter_at 0 0)))
    = Returned (tt, None) c'.
Proof.
  eexists.
  rewrite (@Write_after_AddWithExemplar example_platform example_externals
             example_info 0 f_one []
             {| ex_value := f_one; ex_timestamp := 0; ex_labels := [] |}
             tt (counter_at 0 0) ltac:(reflexivity) ltac:(reflexivity)).
  reflexivity.
Defined.

Lemma Add_banked_at_2p53 :
  after (Add 1 f_one) (counter_at (Float64bits (pow2_float 53)) 0)
  = after_all 1 (repeat OpInc 1) (counter_at (Float64bits (pow2_float 53)) 0).
Proof.
  rewrite (@Add_banked_is_Inc_repeated example_platform example_externals
             0 1 f_one (counter_at (Float64bits (pow2_float 53)) 0)
             ltac:(simpl; lia) ltac:(reflexivity) ltac:(reflexivity)
             ltac:(reflexivity)).
  reflexivity.
Defined.

Lemma With_at_nil_and_at_labels :
  fst (With vec_model nat example_lookup_by_labels example_vec None)
    = inr "nil labels"%string /\
  fst (With vec_model nat example_lookup_by_labels example_vec (Some []))
    = inl (Some 0%nat).
Proof.
  split.
  - apply (proj1 (With_panics_iff_error vec_model nat example_lookup_by_labels
                    example_vec None)).
    reflexivity.
  - apply (proj1 (proj2 (With_panics_iff_error vec_model nat
                           example_lookup_by_labels example_vec (Some [])))).
    reflexivity.
Defined.

Lemma MustCurryWith_at_nil_and_at_labels :
  MustCurryWith vec_model example_curry example_vec None
    = inr "nil labels"%string /\
  MustCurryWith vec_model example_curry example_vec (Some [])
    = inl (Some example_vec).
Proof.
  split.
  - apply (proj1 (proj2 (MustCurryWith_panics_iff_error vec_model example_curry
                           example_vec None))).
    reflexivity.
  - apply (proj2 (proj2 (MustCurryWith_panics_iff_error vec_model example_curry
                           example_vec (Some [])))).
    reflexivity.
Defined.
